(** * Saved-object references of filters, and the bfetch streaming routes

    A shallow embedding of two source files of the repository:
    - the filter-reference transform ([extractFilterReferences],
      [injectFilterReferences]);
    - the server plugin of bfetch ([getCompressionDisabled],
      [addStreamingResponseRoute], [addBatchProcessingRoute]). *)

From stdpp Require Import base option list strings pretty gmap.

Set Default Proof Using "Type".

(** ** What a JavaScript call does: it returns a value or throws *)

Inductive Completion (A : Type) : Type :=
  | Returned (a : A)
  | Thrown (message : string).   (* throw new Error(message) *)
Arguments Returned {A} a.
Arguments Thrown {A} message.

(** [Array.prototype.map] with a callback that may throw: the rows are
    visited from left to right and the first throw leaves the loop. *)
Fixpoint mapThrowing {A B : Type} (f : A → Completion B) (l : list A)
  : Completion (list B) :=
  match l with
  | [] => Returned []
  | x :: l' =>
      match f x with
      | Thrown message => Thrown message
      | Returned y =>
          match mapThrowing f l' with
          | Thrown message => Thrown message
          | Returned ys => Returned (y :: ys)
          end
      end
  end.

(** JavaScript truthiness of an optional string property: [undefined] and
    the empty string are falsy, every other string is truthy. [truthy]
    gives the string when it is truthy. *)
Definition truthy (s : option string) : option string :=
  match s with
  | None => None
  | Some s => if String.eqb s "" then None else Some s
  end.

Module FilterReferences.

Section Filters.
(** The functions read [meta], [meta.index], [meta.value] and
    [meta.indexRefName]; what else a filter and its meta carry ($state,
    query; alias, negate, disabled, ...) is copied by the spreads. *)
Context {Value MetaRest FilterRest : Type}.

(** [Filter] of @kbn/es-query, as far as the functions look at it. The
    declared type has no [indexRefName], but types are erased at run time:
    a filter that was persisted before and is passed again carries the
    property, and the functions copy or read it, so it is part of the
    object here. *)
Record FilterMeta : Type := {
  index : option string;
  indexRefName : option string;
  value : option Value;
  metaRest : MetaRest;
}.

Record Filter : Type := {
  meta : option FilterMeta;
  filterRest : FilterRest;
}.

(** [PersistableFilter]: a filter whose meta may carry [indexRefName]. *)
Record PersistableFilterMeta : Type := {
  p_index : option string;
  p_indexRefName : option string;
  p_value : option Value;
  p_metaRest : MetaRest;
}.

Record PersistableFilter : Type := {
  p_meta : option PersistableFilterMeta;
  p_filterRest : FilterRest;
}.

Record SavedObjectReference : Type := {
  name : string;
  type : string;
  id : string;
}.

(** A [Filter] returned where a [PersistableFilter] is expected: the same
    object, with all that its meta carries. *)
Definition metaAsPersistable (m : FilterMeta) : PersistableFilterMeta :=
  {| p_index := index m; p_indexRefName := indexRefName m;
     p_value := value m; p_metaRest := metaRest m |}.

Definition asPersistable (filterRow : Filter) : PersistableFilter :=
  {| p_meta := metaAsPersistable <$> meta filterRow;
     p_filterRest := filterRest filterRow |}.

(** [`filter-index-pattern-${i}`] *)
Definition refNameOf (i : nat) : string :=
  "filter-index-pattern-" +:+ pretty i.

(** No reference of the list is named after row [k]. *)
Definition unnamed (k : nat) (references : list SavedObjectReference)
  : Prop :=
  List.find (λ ref, String.eqb (name ref) (refNameOf k)) references = None.

(** The callback of [filters.map] in [extractFilterReferences], with the
    array [references] it pushes to passed in and out. *)
Definition extractRow (i : nat) (filterRow : Filter)
    (references : list SavedObjectReference)
  : PersistableFilter * list SavedObjectReference :=
  match meta filterRow with
  | None => (asPersistable filterRow, references)
  | Some m =>
      match truthy (index m) with
      | None => (asPersistable filterRow, references)
      | Some index =>
          let refName := refNameOf i in
          let references :=
            references ++
              [ {| name := refName; type := "index-pattern"; id := index |} ] in
          let newFilter :=
            {| p_meta :=
                 Some {| p_index := None;       (* delete newFilter.meta.index *)
                         p_indexRefName := Some refName;
                         p_value := None;       (* delete newFilter.meta.value *)
                         p_metaRest := metaRest m |};
               p_filterRest := filterRest filterRow |} in
          (newFilter, references)
      end
  end.

Fixpoint extractFrom (i : nat) (filters : list Filter)
    (references : list SavedObjectReference)
  : list PersistableFilter * list SavedObjectReference :=
  match filters with
  | [] => ([], references)
  | filterRow :: filters' =>
      let '(row, references) := extractRow i filterRow references in
      let '(rows, references) := extractFrom (S i) filters' references in
      (row :: rows, references)
  end.

Record Extracted : Type := {
  persistableFilters : list PersistableFilter;
  references : list SavedObjectReference;
}.

Definition extractFilterReferences (filters : list Filter) : Extracted :=
  let '(rows, references) := extractFrom 0 filters [] in
  {| persistableFilters := rows; references := references |}.

(** The callback of [filters.map] in [injectFilterReferences].
    [filterRow as Filter] is a type assertion and is erased at run time:
    the row is returned as it is. *)
Definition injectRow (references : list SavedObjectReference)
    (filterRow : PersistableFilter) : Completion PersistableFilter :=
  match p_meta filterRow with
  | None => Returned filterRow
  | Some m =>
      match truthy (p_indexRefName m) with
      | None => Returned filterRow
      | Some indexRefName =>
          match List.find (λ ref, String.eqb (name ref) indexRefName)
                  references with
          | None => Thrown ("Could not find reference for " +:+ indexRefName)
          | Some reference =>
              Returned
                {| p_meta :=
                     Some {| p_index := Some (id reference);
                             p_indexRefName := None;   (* not in metaRest *)
                             p_value := p_value m;
                             p_metaRest := p_metaRest m |};
                   p_filterRest := p_filterRest filterRow |}
          end
      end
  end.

Definition injectFilterReferences (filters : list PersistableFilter)
    (references : list SavedObjectReference)
  : Completion (list PersistableFilter) :=
  mapThrowing (injectRow references) filters.

(** The wording of the specification for a missing reference: the row has
    a [meta.indexRefName] and no reference of the list has that name. *)
Definition namesMissingReference (references : list SavedObjectReference)
    (filterRow : PersistableFilter) (refName : string) : Prop :=
  ∃ m, p_meta filterRow = Some m ∧ p_indexRefName m = Some refName ∧
       ∀ ref, ref ∈ references → name ref ≠ refName.

(** What a filter looks like after extraction and injection: the row is
    related to the filter it came from. *)
Definition roundTripped (filterRow : Filter) (restored : PersistableFilter)
  : Prop :=
  match meta filterRow with
  | None => restored = asPersistable filterRow
  | Some m =>
      match index m with
      | None => restored = asPersistable filterRow
      | Some idx =>
          ∃ m', p_meta restored = Some m' ∧
                p_index m' = Some idx ∧
                p_indexRefName m' = None ∧
                p_metaRest m' = metaRest m ∧
                p_filterRest restored = filterRest filterRow ∧
                p_value m' = (if String.eqb idx "" then value m else None)
      end
  end.

(** The index pattern that a filter refers to: its [meta.index], when the
    filter has a [meta] and the index is truthy. *)
Definition indexOf (filterRow : Filter) : option string :=
  meta filterRow ≫= λ m, truthy (index m).

(** The reference that a persistable filter names: its
    [meta.indexRefName], when it has a [meta] and the name is truthy. *)
Definition refNameIn (filterRow : PersistableFilter) : option string :=
  p_meta filterRow ≫= λ m, truthy (p_indexRefName m).

(** A filter that carries [meta.indexRefName] only together with a truthy
    [meta.index]: a filter that is not a persisted one. *)
Definition refNameOnlyWithIndex (filterRow : Filter) : Prop :=
  indexOf filterRow = None →
  ∀ m, meta filterRow = Some m → indexRefName m = None.

(** The object that [references.push] appends for row [i]. *)
Definition referenceOf (i : nat) (index : string) : SavedObjectReference :=
  {| name := refNameOf i; type := "index-pattern"; id := index |}.

(** The row that replaces a filter with an index at position [i]. *)
Definition referringRow (i : nat) (m : FilterMeta) (filterRow : Filter)
  : PersistableFilter :=
  {| p_meta := Some {| p_index := None; p_indexRefName := Some (refNameOf i);
                       p_value := None; p_metaRest := metaRest m |};
     p_filterRest := filterRest filterRow |}.

(** The row that injection returns for a row that names [reference]:
    [{ ...filterRow, meta: { ...metaRest, index: reference.id } }]. *)
Definition injectedRow (m : PersistableFilterMeta)
    (filterRow : PersistableFilter) (reference : SavedObjectReference)
  : PersistableFilter :=
  {| p_meta := Some {| p_index := Some (id reference);
                       p_indexRefName := None;
                       p_value := p_value m;
                       p_metaRest := p_metaRest m |};
     p_filterRest := p_filterRest filterRow |}.

(** What the filter at position [i] becomes, and what is pushed for it. *)
Definition rowAt (i : nat) (filterRow : Filter) : PersistableFilter :=
  (extractRow i filterRow []).1.

Definition pushedAt (i : nat) (filterRow : Filter)
  : list SavedObjectReference :=
  from_option (λ index, [referenceOf i index]) [] (indexOf filterRow).

(** A filter as it is after a save and a load: the value and the
    reference name are gone when the index was replaced by a reference. *)
Definition withoutValue (filterRow : Filter) : Filter :=
  match indexOf filterRow with
  | None => filterRow
  | Some _ =>
      {| meta := (λ m, {| index := index m; indexRefName := None;
                          value := None; metaRest := metaRest m |})
                 <$> meta filterRow;
         filterRest := filterRest filterRow |}
  end.

End Filters.

End FilterReferences.

Module Bfetch.

(** ** Requests and responses of the host *)

(** [request.headers] maps a header name to a string or to a list of
    strings; a header that was not sent is [undefined]. *)
Inductive HeaderValue : Type :=
  | HeaderString (s : string)
  | HeaderList (l : list string).

Record KibanaRequest (Body : Type) : Type := {
  headers : gmap string HeaderValue;
  body : Body;
}.
Arguments headers {Body} _.
Arguments body {Body} _.

Record HttpResponse (Body : Type) : Type := {
  status : nat;
  responseHeaders : gmap string string;
  responseBody : Body;
}.
Arguments status {Body} _.
Arguments responseHeaders {Body} _.
Arguments responseBody {Body} _.

(** Modelled from the spec: [response.ok] of the host's response factory is
    not in the source; it answers with status 200 and the headers and
    body it is given. *)
Definition response_ok {Body : Type} (headers : gmap string string)
    (body : Body) : HttpResponse Body :=
  {| status := 200; responseHeaders := headers; responseBody := body |}.

Definition streamingHeaders : gmap string string :=
  {[ "Content-Type" := "application/x-ndjson";
     "Connection" := "keep-alive";
     "Transfer-Encoding" := "chunked" ]}.

(** [value === 'deflate'] for a header value. *)
Definition headerIs (v : option HeaderValue) (s : string) : bool :=
  match v with
  | Some (HeaderString s') => String.eqb s' s
  | Some (HeaderList _) | None => false
  end.

(** [request.headers['x-chunk-encoding'] !== 'deflate'] *)
Definition getCompressionDisabled {Body : Type} (request : KibanaRequest Body)
  : bool :=
  negb (headerIs (headers request !! "x-chunk-encoding") "deflate").

(** ** Promises and the stream of their results *)

Section Streams.
(** What a handler may throw, or reject with: any value. *)
Context {ErrorValue : Type}.

Inductive Settlement (A : Type) : Type :=
  | Fulfilled (value : A)
  | Rejected (reason : ErrorValue).

(** A promise that settles: [settlesAfter] steps of the job queue from
    now (0: it is settled already), in the way [settlement] says. A promise
    that stays pending for ever has no place here: the properties below
    are about handlers that succeed or fail. *)
Record Promise (A : Type) : Type := {
  settlesAfter : nat;
  settlement : Settlement A;
}.

(** A call of a function typed as returning a promise: it returns one, or
    it throws before it does. *)
Inductive Call (A : Type) : Type :=
  | Returns (promise : Promise A)
  | Throws (reason : ErrorValue).

(** The state of one subscription to the stream of results: what was
    emitted so far (oldest first), the promises still pending, and the
    error that ended the stream, if one did. *)
Record Subscription (A : Type) : Type := {
  emitted : list A;
  inFlight : list (Promise A);
  failure : option ErrorValue;
}.

Arguments Fulfilled {A} value.
Arguments Rejected {A} reason.
Arguments settlesAfter {A} _.
Arguments settlement {A} _.
Arguments Build_Promise {A} _ _.
Arguments emitted {A} _.
Arguments inFlight {A} _.
Arguments failure {A} _.
Arguments Build_Subscription {A} _ _ _.

(** Modelled from the spec: [map$] of @kbn/std is not in the source.
    Every item is handed to the callback at once, with its 0-based
    position, one after the other and without waiting ("all handlers are
    started eagerly, back-to-back"); the results are emitted as the
    promises settle ("in completion order"). *)
Definition map_dollar {A B : Type} (source : list A)
    (fn : A → nat → Promise B) : Subscription B :=
  {| emitted := []; inFlight := imap (λ id item, fn item id) source;
     failure := None |}.

(** Modelled from the spec: what the stream of [map$] (not in the source)
    does in one turn of the event loop. The pending promises are looked at in the order they were started: one that is due
    settles now, and its value is emitted at once; one that is not due
    stays pending ("the dispatcher never blocks item N's emission on item
    M's completion"). A rejection is an error of the sequence: it ends the
    stream, and what was emitted stays ("already-flushed records are not
    retracted"). *)
Fixpoint deliver {A : Type} (ps : list (Promise A)) (s : Subscription A)
  : Subscription A :=
  match ps with
  | [] => s
  | p :: ps' =>
      match settlesAfter p with
      | S n =>
          deliver ps'
            {| emitted := emitted s;
               inFlight := inFlight s ++ [Build_Promise n (settlement p)];
               failure := failure s |}
      | O =>
          match settlement p with
          | Fulfilled value =>
              deliver ps'
                {| emitted := emitted s ++ [value];
                   inFlight := inFlight s; failure := failure s |}
          | Rejected reason =>
              {| emitted := emitted s; inFlight := [];
                 failure := Some reason |}
          end
      end
  end.

(** Modelled from the spec: one turn of the stream of [map$] (not in the
    source); nothing is delivered once an error ended the stream ("the
    stream terminates with an error signal"). *)
Definition tick {A : Type} (s : Subscription A) : Subscription A :=
  match failure s with
  | Some _ => s
  | None =>
      deliver (inFlight s)
        {| emitted := emitted s; inFlight := []; failure := None |}
  end.

(** Modelled from the spec: the stream of [map$] (not in the source) after
    [k] turns of the event loop. *)
Fixpoint after {A : Type} (k : nat) (s : Subscription A) : Subscription A :=
  match k with
  | O => s
  | S k' => after k' (tick s)
  end.

(** Modelled from the spec: the end of the stream of [map$] (not in the
    source): it "signals end-of-stream" when all items have settled and no
    error ended it before. *)
Definition completed {A : Type} (s : Subscription A) : Prop :=
  inFlight s = [] ∧ failure s = None.

(** [x] is written to the stream before [y]. *)
Definition precedes {A : Type} (x y : A) (l : list A) : Prop :=
  ∃ l1 l2 l3, l = l1 ++ x :: l2 ++ y :: l3.

(** The value a promise is fulfilled with, if it is. *)
Definition valueOf {A : Type} (p : Promise A) : option A :=
  match settlement p with
  | Fulfilled value => Some value
  | Rejected _ => None
  end.

Definition fulfilledOnly {A : Type} (ps : list (Promise A)) : Prop :=
  Forall (λ p, is_Some (valueOf p)) ps.

(** The values of the promises that settle [t] turns from now. *)
Definition dueAt {A : Type} (t : nat) (ps : list (Promise A)) : list A :=
  omap valueOf (filter (λ p, settlesAfter p = t) ps).

(** The values of the promises that settle less than [k] turns from now. *)
Definition dueBefore {A : Type} (k : nat) (ps : list (Promise A)) : list A :=
  omap valueOf (filter (λ p, settlesAfter p < k) ps).

(** The promises still pending after one turn. *)
Definition later {A : Type} (ps : list (Promise A)) : list (Promise A) :=
  (λ p, Build_Promise (pred (settlesAfter p)) (settlement p)) <$>
  filter (λ p, settlesAfter p ≠ 0) ps.

End Streams.

Arguments Fulfilled {ErrorValue A} value.
Arguments Rejected {ErrorValue A} reason.
Arguments Returns {ErrorValue A} promise.
Arguments Throws {ErrorValue A} reason.
Arguments settlesAfter {ErrorValue A} _.
Arguments settlement {ErrorValue A} _.
Arguments Build_Promise {ErrorValue A} _ _.
Arguments emitted {ErrorValue A} _.
Arguments inFlight {ErrorValue A} _.
Arguments failure {ErrorValue A} _.
Arguments Build_Subscription {ErrorValue A} _ _ _.

(** ** The body of the response *)

Module Streaming.

Definition newline : Ascii.ascii := Ascii.ascii_of_nat 10.

Fixpoint hasNewline (s : string) : bool :=
  match s with
  | EmptyString => false
  | String c s' => Ascii.eqb c newline || hasNewline s'
  end.

(** The text cut at every newline: the lines, the last of which is what
    follows the last newline. *)
Fixpoint splitOnNewline (s : string) : list string :=
  match s with
  | EmptyString => [EmptyString]
  | String c s' =>
      if Ascii.eqb c newline then EmptyString :: splitOnNewline s'
      else
        match splitOnNewline s' with
        | line :: lines => String c line :: lines
        | [] => [String c EmptyString]
        end
  end.

Section Encoding.
Context {Response : Type}.

(** The serialiser of the platform and its inverse on the side of the
    reader ([JSON.stringify], [JSON.parse]). *)
Variable stringify : Response → string.
Variable parse : string → option Response.

(** The streaming compressor of the platform: [deflate chunks] is all that
    the compressor, created with the stream and living as long as it, has
    put out once the chunks were written to it and flushed, one after the
    other; [inflate] is the decompressor of the reader, run on what was
    received. *)
Variable deflate : list string → string.
Variable inflate : string → option string.

(** Modelled from the spec: the record as [createStream] (not in the
    source) writes it, "one JSON object per line, newline as record
    delimiter". *)
Definition writeLine (record : Response) : string :=
  stringify record +:+ String newline EmptyString.

Fixpoint joined (chunks : list string) : string :=
  match chunks with
  | [] => EmptyString
  | chunk :: chunks' => chunk +:+ joined chunks'
  end.

(** Modelled from the spec: [createStream] of the streaming code is not
    in the source. "Each BatchResult is serialized independently and
    atomically as one self-delimited record"; the order of the records is
    kept; "when enabled, every record passes through a streaming compressor
    before transport, the compressor and stream share the same lifetime".
    The body is given for the records emitted so far. *)
Definition createStream (records : list Response)
    (compressionDisabled : bool) : string :=
  let chunks := writeLine <$> records in
  if compressionDisabled then joined chunks else deflate chunks.

(** Modelled from the spec: the reader of the body (client code, not in
    the source), "decompressing compressed output and parsing it": what was
    received is decompressed when the stream is compressed, and every
    complete line of the text is parsed as one record. *)
Definition readStream (written : string) (compressionDisabled : bool)
  : option (list Response) :=
  text ← (if compressionDisabled then Some written else inflate written);
  let lines := splitOnNewline text in
  mapM parse (take (pred (length lines)) lines).

End Encoding.

End Streaming.

(** ** The batch processing route *)

Section Batch.
Context {BatchItemData BatchItemResult ErrorValue ErrorRest : Type}.

(** Modelled from the spec: [ErrorLike] of the common code is not in the
    source; it is "a stable shape {message: string, code?: string, etc.}":
    a message and whatever else the normalised error carries. *)
Record ErrorLike : Type := {
  message : string;
  errorRest : ErrorRest;
}.

(** [BatchResponseItem], as the callback builds it: [{ id, result }] or
    [{ id, error }]; a property that the object literal does not set is
    [undefined]. *)
Record BatchResponseItem : Type := {
  id : nat;
  result : option BatchItemResult;
  error : option ErrorLike;
}.

(** [normalizeError] of the common code is not in the source: it is
    taken as given, a total function from any thrown value to [ErrorLike]. *)
Variable normalizeError : ErrorValue → ErrorLike.

(** [handlerInstance.onBatchItem], the handler the call site supplies. *)
Variable onBatchItem : BatchItemData → @Call ErrorValue BatchItemResult.

(** The callback handed to [map$]:
    [async (batchItem, id) => { try { const result = await
    handlerInstance.onBatchItem(batchItem); return { id, result }; }
    catch (error) { return { id, error: normalizeError(error) }; } }].
    When the handler throws, the [catch] runs in the call itself and the
    promise of the callback is fulfilled at once. When the handler returns
    a promise, the callback goes on after the [await], which is at the
    earliest one step of the job queue after that promise settles, also
    for a promise that is settled already: its promise is fulfilled one
    step after the handler's. *)
Definition batchItemCallback (batchItem : BatchItemData) (id : nat)
  : @Promise ErrorValue BatchResponseItem :=
  match onBatchItem batchItem with
  | Returns promise =>
      match settlement promise with
      | Fulfilled result =>
          {| settlesAfter := S (settlesAfter promise);
             settlement :=
               Fulfilled {| id := id; result := Some result; error := None |} |}
      | Rejected error =>
          {| settlesAfter := S (settlesAfter promise);
             settlement :=
               Fulfilled {| id := id; result := None;
                            error := Some (normalizeError error) |} |}
      end
  | Throws error =>
      {| settlesAfter := 0;
         settlement :=
           Fulfilled {| id := id; result := None;
                        error := Some (normalizeError error) |} |}
  end.

(** [BatchRequestData]: the body of the request, [{ batch: [...] }]. *)
Record BatchRequestData : Type := {
  batch : list BatchItemData;
}.

(** [getResponseStream: ({ batch }) => map$(batch, ...)] *)
Definition getResponseStream (data : BatchRequestData)
  : @Subscription ErrorValue BatchResponseItem :=
  map_dollar (batch data) batchItemCallback.

(** The record that the callback returns for an item. *)
Definition recordOf (batchItem : BatchItemData) (id : nat)
  : BatchResponseItem :=
  match settlement (batchItemCallback batchItem id) with
  | Fulfilled record => record
  | Rejected _ => {| id := id; result := None; error := None |}
  end.

(** The step in which the promise of the callback settles: at once when
    the handler throws, one step after the handler's promise otherwise. *)
Definition settlesAt (batchItem : BatchItemData) : nat :=
  match onBatchItem batchItem with
  | Returns promise => S (settlesAfter promise)
  | Throws _ => 0
  end.

(** The step in which the handler itself settles: its call, when it throws
    or returns a promise that is settled already. *)
Definition handlerSettlesAt (batchItem : BatchItemData) : nat :=
  match onBatchItem batchItem with
  | Returns promise => settlesAfter promise
  | Throws _ => 0
  end.

(** The wording of the specification for the completion order of the
    handlers: the handler of the item at position [b] settles before the
    handler of the item at position [a] when it settles in an earlier
    step, or when both are settled by the end of their call and [b] is
    called first. *)
Definition handlerSettlesBefore (b : nat) (itemB : BatchItemData)
    (a : nat) (itemA : BatchItemData) : Prop :=
  handlerSettlesAt itemB < handlerSettlesAt itemA ∨
  (handlerSettlesAt itemB = 0 ∧ handlerSettlesAt itemA = 0 ∧ b < a).

(** The wording of the specification for the result of an item:
    Success(id, payload) when its handler succeeds, Failure(id, normalized
    error) when it throws or rejects. *)
Definition expectedRecord (batchItem : BatchItemData) (id : nat)
  : BatchResponseItem :=
  match onBatchItem batchItem with
  | Returns promise =>
      match settlement promise with
      | Fulfilled payload =>
          {| id := id; result := Some payload; error := None |}
      | Rejected reason =>
          {| id := id; result := None; error := Some (normalizeError reason) |}
      end
  | Throws reason =>
      {| id := id; result := None; error := Some (normalizeError reason) |}
  end.

(** The handler fails with [reason]: it throws it, or its promise is
    rejected with it. *)
Definition failsWith (batchItem : BatchItemData) (reason : ErrorValue)
  : Prop :=
  onBatchItem batchItem = Throws reason ∨
  ∃ promise, onBatchItem batchItem = Returns promise ∧
             settlement promise = Rejected reason.

(** A turn by which every handler of the batch has settled. *)
Definition deadline (items : list BatchItemData) : nat :=
  S (max_list (settlesAt <$> items)).

End Batch.

Arguments ErrorLike : clear implicits.
Arguments BatchResponseItem : clear implicits.
Arguments BatchRequestData : clear implicits.

(** ** The streaming response route *)

Section Route.
Context {Payload Response ErrorValue Body : Type}.

(** [createStream] is not in the source: it is taken as given, a function
    of the stream of results and of the flag (the logger apart). *)
Variable createStream : @Subscription ErrorValue Response → bool → Body.

(** [addStreamingResponseRoute]: the handler that it registers with the
    router, for the [handler] of the call site;
    [handler(request).getResponseStream(request.body)] is the stream. *)
Definition addStreamingResponseRoute
    (handler : KibanaRequest Payload → Payload → @Subscription ErrorValue Response)
    (request : KibanaRequest Payload) : HttpResponse Body :=
  let getResponseStream := handler request in
  let data := body request in
  let compressionDisabled := getCompressionDisabled request in
  response_ok streamingHeaders
    (createStream (getResponseStream data) compressionDisabled).

(** [createStreamingRequestHandler]: the request handler that it makes of
    the [streamHandler] of the call site. *)
Definition createStreamingRequestHandler {HandlerContext : Type}
    (streamHandler : HandlerContext → KibanaRequest Payload →
                     @Subscription ErrorValue Response)
    (context : HandlerContext) (request : KibanaRequest Payload)
  : HttpResponse Body :=
  let response := streamHandler context request in
  let compressionDisabled := getCompressionDisabled request in
  response_ok streamingHeaders (createStream response compressionDisabled).

End Route.

(** [addBatchProcessingRoute]: the streaming route of the callback above,
    for the handler that the call site makes of the request. *)
Definition addBatchProcessingRoute
    {BatchItemData BatchItemResult ErrorValue ErrorRest Body : Type}
    (normalizeError : ErrorValue → ErrorLike ErrorRest)
    (createStream :
       @Subscription ErrorValue (BatchResponseItem BatchItemResult ErrorRest) →
       bool → Body)
    (handler : KibanaRequest (BatchRequestData BatchItemData) →
               BatchItemData → @Call ErrorValue BatchItemResult)
    (request : KibanaRequest (BatchRequestData BatchItemData))
  : HttpResponse Body :=
  addStreamingResponseRoute createStream
    (λ request, getResponseStream normalizeError (handler request))
    request.

End Bfetch.

(** * Properties *)

(** ** Generic facts on [List.find] and [mapThrowing] *)

Lemma find_app_none {A : Type} (p : A → bool) (l1 l2 : list A) :
  List.find p l1 = None → List.find p (l1 ++ l2) = List.find p l2.
Proof.
  induction l1 as [|x l1 IH]; simpl; [done|].
  destruct (p x); [done|]. exact IH.
Qed.

Lemma find_none_iff {A : Type} (p : A → bool) (l : list A) :
  List.find p l = None ↔ ∀ x, x ∈ l → p x = false.
Proof.
  induction l as [|x l IH]; simpl.
  - split; [|done]. intros _ y Hy. by apply elem_of_nil in Hy.
  - destruct (p x) eqn:Hpx.
    + split; [done|]. intros H. specialize (H x (list_elem_of_here _ _)).
      congruence.
    + rewrite IH. split.
      * intros H y Hy. apply elem_of_cons in Hy as [->|Hy]; auto.
      * intros H y Hy. apply H. by apply list_elem_of_further.
Qed.

Lemma mapThrowing_length {A B : Type} (f : A → Completion B) l ys :
  mapThrowing f l = Returned ys → length ys = length l.
Proof.
  revert ys. induction l as [|x l IH]; simpl; intros ys H.
  - by inversion H.
  - destruct (f x); [|done]. destruct (mapThrowing f l); [|done].
    inversion H; subst; simpl. f_equal. by apply IH.
Qed.

(** [map] stops at the first row whose call throws: it throws exactly the
    message of that row. *)
Lemma mapThrowing_Thrown {A B : Type} (f : A → Completion B) l message :
  mapThrowing f l = Thrown message ↔
  ∃ l1 x l2, l = l1 ++ x :: l2 ∧ f x = Thrown message ∧
             Forall (λ y, ∃ z, f y = Returned z) l1.
Proof.
  induction l as [|x l IH]; simpl.
  - split; [done|]. intros (l1 & y & l2 & H & _). by destruct l1.
  - split.
    + destruct (f x) as [z|m] eqn:Hfx.
      * destruct (mapThrowing f l) as [ys|m']; [done|].
        intros [= ->]. destruct IH as [IH _].
        destruct (IH eq_refl) as (l1 & y & l2 & -> & Hy & Hl1).
        exists (x :: l1), y, l2. split_and!; [done|done|].
        apply Forall_cons. eauto.
      * intros [= ->]. exists [], x, l. by split_and!.
    + intros (l1 & y & l2 & H & Hy & Hl1).
      destruct l1 as [|x1 l1]; simplify_eq/=; [by rewrite Hy|].
      apply Forall_cons in Hl1 as [[z ->] Hl1].
      destruct IH as [_ IH]. rewrite IH; [done|]. eauto 10.
Qed.

Lemma mapThrowing_Returned_inv {A B : Type} (f : A → Completion B) l ys :
  mapThrowing f l = Returned ys → ∀ x, x ∈ l → ∃ z, f x = Returned z.
Proof.
  revert ys. induction l as [|x l IH]; simpl; intros ys H y Hy.
  - by apply elem_of_nil in Hy.
  - destruct (f x) as [z|] eqn:Hfx; [|done].
    destruct (mapThrowing f l) as [zs|]; [|done].
    apply elem_of_cons in Hy as [->|Hy]; eauto.
Qed.

Lemma omap_cons_match {A B : Type} (f : A → option B) x l :
  omap f (x :: l) =
  match f x with Some y => y :: omap f l | None => omap f l end.
Proof. done. Qed.

Lemma elem_of_concat {A : Type} (x : A) (ls : list (list A)) :
  x ∈ concat ls ↔ ∃ l, x ∈ l ∧ l ∈ ls.
Proof.
  induction ls as [|l ls IH]; simpl.
  - split; [by intros ?%elem_of_nil|]. by intros (l & _ & ?%elem_of_nil).
  - rewrite elem_of_app, IH. split.
    + intros [H|(l' & H1 & H2)]; [exists l|exists l']; split; try done.
      * apply list_elem_of_here.
      * by apply list_elem_of_further.
    + intros (l' & H1 & [->|H2]%elem_of_cons); [by left|right; eauto].
Qed.

Lemma find_app_some {A : Type} (p : A → bool) (l1 l2 : list A) x :
  List.find p l1 = Some x → List.find p (l1 ++ l2) = Some x.
Proof.
  induction l1 as [|y l1 IH]; simpl; [done|]. by destruct (p y).
Qed.

(** [find] returns the first element that passes the test. *)
Lemma find_Some_split {A : Type} (p : A → bool) (l : list A) x :
  List.find p l = Some x ↔
  ∃ l1 l2, l = l1 ++ x :: l2 ∧ p x = true ∧ ∀ y, y ∈ l1 → p y = false.
Proof.
  induction l as [|y l IH]; simpl.
  - split; [done|]. intros (l1 & l2 & H & _). by destruct l1.
  - destruct (p y) eqn:Hy.
    + split.
      * intros [= ->]. exists [], l. split_and!; [done|done|].
        by intros z ?%elem_of_nil.
      * intros (l1 & l2 & H & Hx & Hl1). destruct l1 as [|z l1].
        -- by injection H as -> _.
        -- injection H as <- _. rewrite Hl1 in Hy; [done|].
           apply list_elem_of_here.
    + rewrite IH. split.
      * intros (l1 & l2 & -> & Hx & Hl1). exists (y :: l1), l2.
        split_and!; [done|done|].
        intros z [->|Hz]%elem_of_cons; auto.
      * intros (l1 & l2 & H & Hx & Hl1). destruct l1 as [|z l1].
        -- injection H as -> _. congruence.
        -- injection H as <- ->. exists l1, l2. split_and!; [done|done|].
           intros z' Hz'. apply Hl1. by apply list_elem_of_further.
Qed.

(** When one element only passes the test, [find] returns it. *)
Lemma find_Some_unique {A : Type} (p : A → bool) (l : list A) x :
  x ∈ l → p x = true → (∀ y, y ∈ l → p y = true → y = x) →
  List.find p l = Some x.
Proof.
  induction l as [|y l IH]; simpl; intros Hx Hpx Huniq.
  - by apply elem_of_nil in Hx.
  - destruct (p y) eqn:Hy.
    + f_equal. apply Huniq; [apply list_elem_of_here|done].
    + apply elem_of_cons in Hx as [->|Hx]; [congruence|].
      apply IH; [done|done|]. intros z Hz. apply Huniq.
      by apply list_elem_of_further.
Qed.

Lemma mapThrowing_Returned_Forall2 {A B : Type} (f : A → Completion B) l ys :
  mapThrowing f l = Returned ys ↔ Forall2 (λ x y, f x = Returned y) l ys.
Proof.
  revert ys. induction l as [|x l IH]; simpl; intros ys.
  - split; [intros [= <-]; constructor|]. by intros ->%Forall2_nil_inv_l.
  - split.
    + destruct (f x) as [y|] eqn:Hx; [|done].
      destruct (mapThrowing f l) as [ys'|] eqn:Hl; [|done].
      intros [= <-]. constructor; [done|]. by apply IH.
    + intros (y & ys' & Hx & Hl & ->)%Forall2_cons_inv_l.
      rewrite Hx. apply IH in Hl. by rewrite Hl.
Qed.

Lemma mapThrowing_ext {A B : Type} (f g : A → Completion B) l :
  (∀ x, x ∈ l → f x = g x) → mapThrowing f l = mapThrowing g l.
Proof.
  induction l as [|x l IH]; simpl; intros H; [done|].
  rewrite (H x), IH; [done| |apply list_elem_of_here].
  intros y Hy. apply H. by apply list_elem_of_further.
Qed.

Lemma NoDup_fmap_unique {A B : Type} (f : A → B) (l : list A) x y :
  NoDup (f <$> l) → x ∈ l → y ∈ l → f x = f y → x = y.
Proof.
  induction l as [|z l IH]; simpl; intros Hnd Hx Hy Hxy.
  - by apply elem_of_nil in Hx.
  - apply NoDup_cons in Hnd as [Hz Hnd].
    apply elem_of_cons in Hx as [->|Hx], Hy as [->|Hy]; [done|..].
    + destruct Hz. rewrite Hxy. by apply list_elem_of_fmap_2.
    + destruct Hz. rewrite <-Hxy. by apply list_elem_of_fmap_2.
    + by apply IH.
Qed.

(** ** The filter-reference transform *)

Module FilterReferencesFacts.
Import FilterReferences.

Section Inject.
Context {Value MetaRest FilterRest : Type}.
Abbreviation PersistableFilter := (@PersistableFilter Value MetaRest FilterRest).
Implicit Types (filterRow : PersistableFilter)
               (references : list SavedObjectReference).

Lemma truthy_Some (o : option string) s :
  truthy o = Some s ↔ o = Some s ∧ s ≠ "".
Proof.
  destruct o as [s'|]; simpl; [|by split; [|intros [? _]]].
  destruct (String.eqb_spec s' "") as [->|Hne].
  - split; [done|]. by intros [[= <-] ?].
  - split; [by intros [= <-]|]. by intros [[= <-] _].
Qed.

Lemma find_name_None references refName :
  List.find (λ ref, String.eqb (name ref) refName) references = None ↔
  ∀ ref, ref ∈ references → name ref ≠ refName.
Proof.
  rewrite find_none_iff. by setoid_rewrite String.eqb_neq.
Qed.

(** A row throws exactly when its (truthy) [indexRefName] has no reference. *)
Lemma injectRow_Thrown references filterRow message :
  injectRow references filterRow = Thrown message ↔
  ∃ refName, refName ≠ "" ∧
             namesMissingReference references filterRow refName ∧
             message = "Could not find reference for " +:+ refName.
Proof.
  unfold injectRow, namesMissingReference.
  destruct (p_meta filterRow) as [m|];
    [|split; [done|]; by intros (r & _ & (m' & ? & _) & _)].
  destruct (truthy (p_indexRefName m)) as [s|] eqn:Ht.
  - apply truthy_Some in Ht as [Hs Hne].
    destruct (List.find _ references) as [reference|] eqn:Hfind.
    + split; [done|]. intros (r & _ & (m' & [= <-] & Hr & Hall) & _).
      rewrite Hs in Hr. injection Hr as <-.
      pose proof (proj2 (find_name_None _ _) Hall). congruence.
    + pose proof (proj1 (find_name_None _ _) Hfind) as Hnone. split.
      * intros [= <-]. exists s. eauto 10.
      * intros (r & _ & (m' & [= <-] & Hr & _) & ->). congruence.
  - split; [done|]. intros (r & Hne & (m' & [= <-] & Hr & _) & _).
    assert (truthy (p_indexRefName m) = Some r) as Habs; [|congruence].
    by apply truthy_Some.
Qed.

(** C10 (as corrected): [injectFilterReferences] throws if and only if
    some input filter has a non-empty [meta.indexRefName] that no reference
    of the list is named after; the message of the error names such a
    reference; otherwise it returns one output filter per input filter,
    and a filter whose [meta.indexRefName] is the empty string is returned
    as it is, like one without [indexRefName] or without [meta]. *)
Theorem injectFilterReferences_throws_iff
    (filters : list PersistableFilter) references :
  ((∃ message, injectFilterReferences filters references = Thrown message) ↔
   (∃ filterRow refName,
      filterRow ∈ filters ∧ refName ≠ "" ∧
      namesMissingReference references filterRow refName)) ∧
  match injectFilterReferences filters references with
  | Thrown message =>
      ∃ filterRow refName,
        filterRow ∈ filters ∧ refName ≠ "" ∧
        namesMissingReference references filterRow refName ∧
        message = "Could not find reference for " +:+ refName
  | Returned restored =>
      length restored = length filters ∧
      ∀ i filterRow, filters !! i = Some filterRow →
        (p_meta filterRow = None ∨
         ∃ m, p_meta filterRow = Some m ∧
              (p_indexRefName m = None ∨ p_indexRefName m = Some "")) →
        restored !! i = Some filterRow
  end.
Proof.
  unfold injectFilterReferences.
  assert (∀ message,
    mapThrowing (injectRow references) filters = Thrown message →
    ∃ filterRow refName,
      filterRow ∈ filters ∧ refName ≠ "" ∧
      namesMissingReference references filterRow refName ∧
      message = "Could not find reference for " +:+ refName) as Hthrow.
  { intros message (l1 & x & l2 & -> & Hx & _)%mapThrowing_Thrown.
    apply injectRow_Thrown in Hx as (r & Hne & Hmiss & ->).
    exists x, r. split_and!; try done. set_solver. }
  split.
  - split.
    + intros [message H]. destruct (Hthrow _ H) as (x & r & ? & ? & ? & _).
      eauto.
    + intros (x & r & Hin & Hne & Hmiss).
      destruct (mapThrowing _ filters) as [ys|message] eqn:Hm; [|eauto].
      destruct (mapThrowing_Returned_inv _ _ _ Hm x Hin) as [z Hz].
      assert (injectRow references x =
              Thrown ("Could not find reference for " +:+ r)) as Hx
        by (apply injectRow_Thrown; eauto).
      congruence.
  - destruct (mapThrowing _ filters) as [ys|message] eqn:Hm.
    + split; [by eapply mapThrowing_length|].
      apply mapThrowing_Returned_Forall2 in Hm.
      intros i filterRow Hi Hfalsy.
      destruct (Forall2_lookup_l _ _ _ _ _ Hm Hi) as (r & -> & Hrow).
      f_equal. unfold injectRow in Hrow.
      destruct Hfalsy as [Hmeta|(m & Hmeta & [Hname|Hname])];
        rewrite Hmeta in Hrow; [|rewrite Hname in Hrow..];
        simpl in Hrow; congruence.
    + by apply Hthrow.
Qed.

(** C10 (as stated) fails: a filter whose [meta.indexRefName] is the empty
    string names a reference that the empty list lacks, and
    [injectFilterReferences] returns it instead of throwing. *)
Lemma injectFilterReferences_empty_refName_not_thrown :
  let filterRow : @FilterReferences.PersistableFilter unit unit unit :=
    {| p_meta := Some {| p_index := None; p_indexRefName := Some "";
                         p_value := None; p_metaRest := () |};
       p_filterRest := () |} in
  ¬ ((∃ message, injectFilterReferences [filterRow] [] = Thrown message) ↔
     (∃ row refName, row ∈ [filterRow] ∧
                     namesMissingReference [] row refName)).
Proof.
  intros filterRow [_ H].
  destruct H as [message H]; [|done].
  exists filterRow, "". split; [apply list_elem_of_here|].
  eexists. split_and!; [done|done|]. intros ref Href.
  by apply elem_of_nil in Href.
Qed.

End Inject.

Section RoundTrip.
Context {Value MetaRest FilterRest : Type}.
Abbreviation Filter := (@Filter Value MetaRest FilterRest).
Implicit Types (filterRow : Filter) (filters : list Filter)
               (references : list SavedObjectReference).

Lemma refNameOf_inj : Inj (=) (=) refNameOf.
Proof.
  intros i k H. unfold refNameOf in H.
  apply String.app_inj in H. by apply (inj pretty) in H.
Qed.

Lemma unnamed_snoc k i references refId :
  k ≠ i → unnamed k references →
  unnamed k (references ++
               [ {| name := refNameOf i; type := "index-pattern"; id := refId |} ]).
Proof.
  unfold unnamed. intros Hne H. rewrite find_app_none by done.
  cbn [List.find name].
  destruct (String.eqb_spec (refNameOf i) (refNameOf k)) as [Heq|]; [|done].
  apply refNameOf_inj in Heq. congruence.
Qed.

(** A row that extraction leaves alone, and that names no reference, is
    left alone by injection too. *)
Lemma injectRow_asPersistable references filterRow :
  refNameOnlyWithIndex filterRow →
  indexOf filterRow = None →
  injectRow references (asPersistable filterRow) =
  Returned (asPersistable filterRow).
Proof.
  intros Hown Hidx. specialize (Hown Hidx).
  unfold injectRow, asPersistable; simpl.
  destruct (meta filterRow) as [m|]; [|done]. simpl.
  by rewrite (Hown m eq_refl).
Qed.

(** One row through [extractRow], then [injectRow] against any list of
    references that extends the one [extractRow] leaves. *)
Lemma extractRow_injectRow i filterRow pre row references :
  refNameOnlyWithIndex filterRow →
  unnamed i pre →
  extractRow i filterRow pre = (row, references) →
  ∃ pushed restored,
    references = pre ++ pushed ∧
    (∀ k, k ≠ i → unnamed k pre → unnamed k references) ∧
    roundTripped filterRow restored ∧
    ∀ post, injectRow (references ++ post) row = Returned restored.
Proof.
  intros Hown Hpre.
  unfold extractRow, roundTripped.
  destruct (meta filterRow) as [m|] eqn:Hmeta.
  - destruct (index m) as [idx|] eqn:Hidx; simpl.
    + destruct (String.eqb idx "") eqn:Hempty; simpl.
      * assert (indexOf filterRow = None) as Hnone.
        { unfold indexOf. rewrite Hmeta. simpl. rewrite Hidx. simpl.
          by rewrite Hempty. }
        intros [= <- <-]. exists [], (asPersistable filterRow).
        rewrite app_nil_r. split_and!; [done|done| |].
        -- unfold asPersistable. rewrite Hmeta. simpl.
           eexists. split; [done|]. simpl. rewrite Hidx.
           by rewrite (Hown Hnone m Hmeta).
        -- intros post. by apply injectRow_asPersistable.
      * intros [= <- <-].
        eexists [_],
          {| p_meta := Some {| p_index := Some idx; p_indexRefName := None;
                               p_value := None; p_metaRest := metaRest m |};
             p_filterRest := filterRest filterRow |}.
        split_and!; [done| | |].
        -- intros k Hk Hun. by apply unnamed_snoc.
        -- eexists. simpl. split_and!; done.
        -- intros post. unfold injectRow. simpl.
           rewrite <-app_assoc, find_app_none by exact Hpre. simpl.
           by rewrite String.eqb_refl.
    + assert (indexOf filterRow = None) as Hnone.
      { unfold indexOf. rewrite Hmeta. simpl. by rewrite Hidx. }
      intros [= <- <-]. exists [], (asPersistable filterRow).
      rewrite app_nil_r. split_and!; [done|done|done|].
      intros post. by apply injectRow_asPersistable.
  - assert (indexOf filterRow = None) as Hnone.
    { unfold indexOf. by rewrite Hmeta. }
    intros [= <- <-]. exists [], (asPersistable filterRow).
    rewrite app_nil_r. split_and!; [done|done|done|].
    intros post. by apply injectRow_asPersistable.
Qed.

Lemma extractFrom_inject filters : ∀ i pre rows references,
  Forall refNameOnlyWithIndex filters →
  (∀ k, i ≤ k → unnamed k pre) →
  extractFrom i filters pre = (rows, references) →
  ∃ restored,
    Forall2 roundTripped filters restored ∧
    ∀ post, mapThrowing (injectRow (references ++ post)) rows
            = Returned restored.
Proof.
  induction filters as [|filterRow filters IH]; simpl;
    intros i pre rows references Hown Hpre Hext.
  - injection Hext as <- <-. exists []. split; [constructor|done].
  - destruct (extractRow i filterRow pre) as [row refs1] eqn:Hrow.
    destruct (extractFrom (S i) filters refs1) as [rows' refs2] eqn:Hrows.
    injection Hext as <- <-.
    apply Forall_cons in Hown as [Hown1 Hown].
    destruct (extractRow_injectRow _ _ _ _ _ Hown1 (Hpre i (le_n _)) Hrow)
      as (pushed & r & -> & Hun & Hrt & Hinj).
    destruct (IH (S i) _ _ _ Hown
                (λ k Hk, Hun k ltac:(lia) (Hpre k ltac:(lia))) Hrows)
      as (restored & Hall & Hmap).
    exists (r :: restored). split; [by constructor|].
    intros post.
    assert (∃ pushed', refs2 = (pre ++ pushed) ++ pushed') as [pushed' ->].
    { clear -Hrows. revert Hrows. generalize (pre ++ pushed) (S i) rows'.
      clear. induction filters as [|f fs IHfs]; simpl; intros acc j rows.
      - intros [= _ <-]. exists []. by rewrite app_nil_r.
      - destruct (extractRow j f acc) as [row a1] eqn:Hr.
        destruct (extractFrom (S j) fs a1) as [rs a2] eqn:Hrs.
        intros [= _ <-]. apply IHfs in Hrs as [p2 ->].
        assert (∃ p1, a1 = acc ++ p1) as [p1 ->].
        { unfold extractRow in Hr.
          destruct (meta f) as [m|]; [destruct (truthy _)|..];
            injection Hr as _ <-; eauto using app_nil_r. }
        exists (p1 ++ p2). by rewrite app_assoc. }
    cbn [mapThrowing].
    rewrite <-(app_assoc (pre ++ pushed)), Hinj.
    rewrite (app_assoc (pre ++ pushed)), Hmap. done.
Qed.

(** C9 (as corrected): for a list of filters each of which carries a
    [meta.indexRefName] only together with a truthy [meta.index],
    extracting the references and injecting them back returns (without
    throwing) one filter per input filter, in the same order; a filter that
    had a [meta.index] has the same [meta.index] again and no
    [meta.indexRefName] (its [meta.value] is gone when the index was
    replaced by a reference); a filter without [meta] or without
    [meta.index] comes back unchanged. *)
Theorem extract_inject_round_trip filters :
  Forall refNameOnlyWithIndex filters →
  ∃ restored,
    injectFilterReferences
      (persistableFilters (extractFilterReferences filters))
      (references (extractFilterReferences filters)) = Returned restored ∧
    Forall2 roundTripped filters restored.
Proof.
  intros Hown. unfold extractFilterReferences, injectFilterReferences.
  destruct (extractFrom 0 filters []) as [rows refs] eqn:Hext. simpl.
  destruct (extractFrom_inject filters 0 [] rows refs) as (restored & Hall & Hmap);
    [done|done|done|].
  exists restored. split; [|done].
  specialize (Hmap []). by rewrite app_nil_r in Hmap.
Qed.

End RoundTrip.

(** C9 (as stated) fails: a filter without an index that carries a
    [meta.indexRefName] is returned by extraction as it is, with no
    reference, and injection then throws for it. *)
Lemma extract_inject_stray_refName :
  let filterRow : @Filter unit unit unit :=
    {| meta := Some {| index := None; indexRefName := Some "x";
                       value := None; metaRest := () |};
       filterRest := () |} in
  ¬ ∃ restored,
      injectFilterReferences
        (persistableFilters (extractFilterReferences [filterRow]))
        (references (extractFilterReferences [filterRow])) = Returned restored ∧
      Forall2 roundTripped [filterRow] restored.
Proof. intros filterRow (restored & H & _). by vm_compute in H. Qed.

(** Two filters that are not persisted ones. *)
Lemma extract_inject_round_trip_two_filters :
  let withIndex : @Filter nat unit unit :=
    {| meta := Some {| index := Some "logs"; indexRefName := None;
                       value := Some 5; metaRest := () |};
       filterRest := () |} in
  let withoutMeta : @Filter nat unit unit :=
    {| meta := None; filterRest := () |} in
  ∃ restored,
    injectFilterReferences
      (persistableFilters (extractFilterReferences [withoutMeta; withIndex]))
      (references (extractFilterReferences [withoutMeta; withIndex]))
    = Returned restored ∧
    Forall2 roundTripped [withoutMeta; withIndex] restored.
Proof.
  intros withIndex withoutMeta.
  apply (extract_inject_round_trip [withoutMeta; withIndex]).
  repeat constructor.
  - by intros _ m.
  - by intros H.
Defined.

(** *** Extraction, row by row *)

Section Extract.
Context {Value MetaRest FilterRest : Type}.
Abbreviation FilterT := (@FilterReferences.Filter Value MetaRest FilterRest).
Abbreviation RowT :=
  (@FilterReferences.PersistableFilter Value MetaRest FilterRest).
Implicit Types (filterRow : FilterT) (filters : list FilterT)
               (row : RowT) (rows : list RowT)
               (references : list SavedObjectReference).

Lemma extractRow_no_index i filterRow references :
  indexOf filterRow = None →
  extractRow i filterRow references = (asPersistable filterRow, references).
Proof.
  unfold indexOf, extractRow. destruct (meta filterRow) as [m|]; [|done].
  simpl. by intros ->.
Qed.

Lemma extractRow_index i filterRow references idx :
  indexOf filterRow = Some idx →
  ∃ m, meta filterRow = Some m ∧
       extractRow i filterRow references =
       (referringRow i m filterRow, references ++ [referenceOf i idx]).
Proof.
  unfold indexOf, extractRow. destruct (meta filterRow) as [m|]; [|done].
  simpl. intros ->. by exists m.
Qed.

Lemma extractRow_rowAt i filterRow references :
  extractRow i filterRow references =
  (rowAt i filterRow, references ++ pushedAt i filterRow).
Proof.
  unfold rowAt, pushedAt. destruct (indexOf filterRow) as [idx|] eqn:Hidx.
  - destruct (extractRow_index i filterRow references idx Hidx) as (m & Hm & ->).
    destruct (extractRow_index i filterRow [] idx Hidx) as (m' & Hm' & ->).
    simpl. congruence.
  - rewrite !extractRow_no_index by done. simpl. by rewrite app_nil_r.
Qed.

Lemma extractFrom_rowAt filters : ∀ i references,
  extractFrom i filters references =
  (imap (λ j, rowAt (i + j)) filters,
   references ++ concat (imap (λ j, pushedAt (i + j)) filters)).
Proof.
  induction filters as [|filterRow filters IH]; intros i references.
  - simpl. by rewrite app_nil_r.
  - cbn [extractFrom]. rewrite extractRow_rowAt, IH. rewrite !imap_cons.
    rewrite Nat.add_0_r. simpl. rewrite <-app_assoc. f_equal.
    + f_equal. apply imap_ext. intros j f _. simpl. f_equal. lia.
    + do 3 f_equal. apply imap_ext. intros j f _. simpl. f_equal. lia.
Qed.

Lemma extractFilterReferences_rowAt filters :
  extractFilterReferences filters =
  {| persistableFilters := imap rowAt filters;
     references := concat (imap pushedAt filters) |}.
Proof.
  unfold extractFilterReferences. by rewrite extractFrom_rowAt.
Qed.

Lemma rowAt_no_index i filterRow :
  indexOf filterRow = None → rowAt i filterRow = asPersistable filterRow.
Proof. intros H. unfold rowAt. by rewrite extractRow_no_index. Qed.

Lemma rowAt_index i filterRow idx :
  indexOf filterRow = Some idx →
  ∃ m, meta filterRow = Some m ∧ rowAt i filterRow = referringRow i m filterRow.
Proof.
  intros H. unfold rowAt.
  destruct (extractRow_index i filterRow [] idx H) as (m & Hm & ->). eauto.
Qed.

Lemma elem_of_pushed filters ref :
  ref ∈ concat (imap pushedAt filters) ↔
  ∃ i filterRow idx, filters !! i = Some filterRow ∧
                     indexOf filterRow = Some idx ∧ ref = referenceOf i idx.
Proof.
  rewrite elem_of_concat. split.
  - intros (l & Href & (i & filterRow & -> & Hi)%elem_of_lookup_imap).
    unfold pushedAt in Href. destruct (indexOf filterRow) as [idx|] eqn:Hidx.
    + apply list_elem_of_singleton in Href. eauto 10.
    + by apply elem_of_nil in Href.
  - intros (i & filterRow & idx & Hi & Hidx & ->).
    exists (pushedAt i filterRow). split.
    + unfold pushedAt. rewrite Hidx. apply list_elem_of_here.
    + by apply elem_of_lookup_imap_2.
Qed.

Lemma pushedAt_names (h : nat → nat) filters x :
  x ∈ name <$> concat (imap (λ j, pushedAt (h j)) filters) →
  ∃ j, j < length filters ∧ x = refNameOf (h j).
Proof.
  intros (ref & -> & Href)%list_elem_of_fmap.
  apply elem_of_concat in Href as (l & Href & Hl).
  apply elem_of_lookup_imap in Hl as (j & filterRow & -> & Hj).
  unfold pushedAt in Href. destruct (indexOf filterRow) as [idx|]; simpl in Href.
  - apply list_elem_of_singleton in Href as ->. exists j.
    split; [by eapply lookup_lt_Some|done].
  - by apply elem_of_nil in Href.
Qed.

Lemma pushedAt_NoDup (h : nat → nat) filters :
  Inj (=) (=) h →
  NoDup (name <$> concat (imap (λ j, pushedAt (h j)) filters)).
Proof.
  revert h. induction filters as [|filterRow filters IH]; intros h Hh.
  - constructor.
  - rewrite imap_cons. cbn [concat]. rewrite fmap_app. apply NoDup_app.
    split_and!.
    + unfold pushedAt. destruct (indexOf filterRow); simpl.
      * apply NoDup_singleton.
      * constructor.
    + intros x Hx Hx'.
      apply (pushedAt_names (h ∘ S)) in Hx' as (j & _ & ->).
      unfold pushedAt in Hx. destruct (indexOf filterRow); simpl in Hx.
      * apply list_elem_of_singleton, refNameOf_inj, Hh in Hx. done.
      * by apply elem_of_nil in Hx.
    + apply (IH (h ∘ S)). intros i j Hij. apply Hh in Hij. by injection Hij.
Qed.

Lemma pushedAt_length (h : nat → nat) filters :
  length (concat (imap (λ j, pushedAt (h j)) filters)) =
  length (filter (λ filterRow, is_Some (indexOf filterRow)) filters).
Proof.
  revert h. induction filters as [|filterRow filters IH]; intros h; [done|].
  rewrite imap_cons. cbn [concat]. rewrite length_app.
  change (imap ((λ j, pushedAt (h j)) ∘ S) filters)
    with (imap (λ j, pushedAt ((h ∘ S) j)) filters).
  rewrite (IH (h ∘ S)). unfold pushedAt at 1. destruct (indexOf filterRow) as [idx|] eqn:Hidx.
  - rewrite filter_cons_True by (rewrite Hidx; eauto). done.
  - rewrite filter_cons_False; [done|]. rewrite Hidx. by intros [? ?].
Qed.

(** X1: extraction returns one row per filter, at the same position; the
    row keeps what the filter carries besides its meta; a filter without a
    truthy [meta.index] is returned as it is, and one with such an index
    loses [index] and [value] and gets the reference name of its position,
    [filter-index-pattern-i]. *)
Theorem extractFilterReferences_rows filters :
  length (persistableFilters (extractFilterReferences filters))
    = length filters ∧
  ∀ i filterRow, filters !! i = Some filterRow →
    ∃ row,
      persistableFilters (extractFilterReferences filters) !! i = Some row ∧
      p_filterRest row = filterRest filterRow ∧
      match indexOf filterRow with
      | None => row = asPersistable filterRow
      | Some _ =>
          ∃ m, meta filterRow = Some m ∧
               p_meta row =
               Some {| p_index := None;
                       p_indexRefName := Some (refNameOf i);
                       p_value := None; p_metaRest := metaRest m |}
      end.
Proof.
  rewrite extractFilterReferences_rowAt. simpl. split; [apply length_imap|].
  intros i filterRow Hi. exists (rowAt i filterRow).
  rewrite list_lookup_imap, Hi. split; [done|].
  destruct (indexOf filterRow) as [idx|] eqn:Hidx.
  - destruct (rowAt_index i filterRow idx Hidx) as (m & Hm & ->). eauto.
  - by rewrite rowAt_no_index.
Qed.

(** X2: the references are, in the order of the filters, one reference for
    each filter that has a truthy [meta.index]: its name is made of the
    position of the filter, its type is "index-pattern" and its id is the
    index. There are as many references as filters with an index. *)
Theorem extractFilterReferences_references filters :
  references (extractFilterReferences filters) =
    concat (imap (λ i filterRow,
                    match indexOf filterRow with
                    | Some idx =>
                        [ {| name := refNameOf i; type := "index-pattern";
                             id := idx |} ]
                    | None => []
                    end) filters) ∧
  Forall (λ ref, type ref = "index-pattern")
    (references (extractFilterReferences filters)) ∧
  length (references (extractFilterReferences filters)) =
    length (filter (λ filterRow, is_Some (indexOf filterRow)) filters).
Proof.
  rewrite extractFilterReferences_rowAt. simpl. split_and!.
  - reflexivity.
  - apply Forall_forall.
    by intros ref (i & filterRow & idx & _ & _ & ->)%elem_of_pushed.
  - apply (pushedAt_length (λ j, j)).
Qed.

(** X3: the names of the extracted references are pairwise distinct. *)
Theorem extractFilterReferences_names_NoDup filters :
  NoDup (name <$> references (extractFilterReferences filters)).
Proof.
  rewrite extractFilterReferences_rowAt. simpl.
  apply (pushedAt_NoDup (λ j, j)). by intros i j.
Qed.

(** X4: extraction returns no reference exactly when no filter has a truthy
    [meta.index]; the rows are then the filters themselves. *)
Theorem extractFilterReferences_no_references filters :
  (references (extractFilterReferences filters) = [] ↔
   Forall (λ filterRow, indexOf filterRow = None) filters) ∧
  (references (extractFilterReferences filters) = [] →
   persistableFilters (extractFilterReferences filters)
     = asPersistable <$> filters).
Proof.
  rewrite extractFilterReferences_rowAt. simpl.
  assert (concat (imap pushedAt filters) = [] ↔
          Forall (λ filterRow, indexOf filterRow = None) filters) as Hiff.
  { rewrite Forall_forall. split.
    - intros Hnil filterRow (i & Hi)%list_elem_of_lookup_1.
      destruct (indexOf filterRow) as [idx|] eqn:Hidx; [|done].
      assert (referenceOf i idx ∈ concat (imap pushedAt filters)) as Hin
        by (apply elem_of_pushed; eauto 10).
      rewrite Hnil in Hin. by apply elem_of_nil in Hin.
    - intros Hall. apply elem_of_nil_inv.
      intros ref (i & filterRow & idx & Hi & Hidx & _)%elem_of_pushed.
      rewrite (Hall filterRow) in Hidx; [done|].
      by eapply list_elem_of_lookup_2. }
  split; [done|]. intros Hall%Hiff. rewrite Forall_forall in Hall.
  rewrite <-imap_const. apply imap_ext. intros i filterRow Hi.
  apply rowAt_no_index, Hall. by eapply list_elem_of_lookup_2.
Qed.

(** X5: filters appended at the end do not change what is extracted for the
    filters before them: the rows and the references of a list are a
    prefix of the rows and the references of the longer list. *)
Theorem extractFilterReferences_prefix filters more :
  persistableFilters (extractFilterReferences filters)
    `prefix_of` persistableFilters (extractFilterReferences (filters ++ more)) ∧
  references (extractFilterReferences filters)
    `prefix_of` references (extractFilterReferences (filters ++ more)).
Proof.
  rewrite !extractFilterReferences_rowAt. simpl.
  rewrite !imap_app, concat_app. split; apply prefix_app_r; done.
Qed.

End Extract.

(** *** Injection, row by row *)

Section InjectRows.
Context {Value MetaRest FilterRest : Type}.
Implicit Types
  (row r : @FilterReferences.PersistableFilter Value MetaRest FilterRest)
  (filters restored :
     list (@FilterReferences.PersistableFilter Value MetaRest FilterRest))
  (references : list SavedObjectReference).

Lemma injectRow_no_name references row :
  refNameIn row = None → injectRow references row = Returned row.
Proof.
  unfold refNameIn, injectRow. destruct (p_meta row) as [m|]; [|done].
  simpl. by intros ->.
Qed.

Lemma injectRow_name references row n :
  refNameIn row = Some n →
  ∃ m, p_meta row = Some m ∧ p_indexRefName m = Some n ∧ n ≠ "" ∧
       injectRow references row =
       match List.find (λ ref, String.eqb (name ref) n) references with
       | Some reference => Returned (injectedRow m row reference)
       | None => Thrown ("Could not find reference for " +:+ n)
       end.
Proof.
  unfold refNameIn, injectRow. destruct (p_meta row) as [m|]; [|done].
  simpl. intros Ht. rewrite Ht. apply truthy_Some in Ht as [Hn Hne].
  exists m. by split_and!.
Qed.

Lemma injectRow_Returned references row r :
  injectRow references row = Returned r →
  refNameIn r = None ∧
  match refNameIn row with
  | None => r = row
  | Some n =>
      ∃ m reference,
        p_meta row = Some m ∧
        List.find (λ ref, String.eqb (name ref) n) references = Some reference ∧
        r = injectedRow m row reference
  end.
Proof.
  destruct (refNameIn row) as [n|] eqn:Hn.
  - destruct (injectRow_name references row n Hn) as (m & Hm & _ & _ & ->).
    destruct (List.find _ references) as [reference|]; [|done].
    intros [= <-]. split; [done|]. eauto.
  - rewrite injectRow_no_name by done. by intros [= <-].
Qed.

Lemma find_name_Some references n :
  (∃ reference,
     List.find (λ ref, String.eqb (name ref) n) references = Some reference) ↔
  ∃ ref, ref ∈ references ∧ name ref = n.
Proof.
  split.
  - intros [reference (l1 & l2 & -> & Hn%String.eqb_eq & _)%find_Some_split].
    exists reference. split; [|done]. set_solver.
  - intros (ref & Hin & Hn).
    destruct (List.find _ references) as [reference|] eqn:Hfind; [eauto|].
    pose proof (proj1 (find_name_None _ _) Hfind ref Hin). done.
Qed.

(** A row is returned exactly when the reference it names, if it names
    one, is in the list. *)
Lemma injectRow_Returned_iff references row :
  (∃ r, injectRow references row = Returned r) ↔
  ∀ n, refNameIn row = Some n → ∃ ref, ref ∈ references ∧ name ref = n.
Proof.
  destruct (refNameIn row) as [n|] eqn:Hn.
  - destruct (injectRow_name references row n Hn) as (m & _ & _ & _ & ->).
    split.
    + intros [r Hr] n' [= <-]. apply find_name_Some.
      destruct (List.find _ references); [eauto|done].
    + intros H. destruct (proj2 (find_name_Some references n) (H n eq_refl))
        as [reference ->]. eauto.
  - rewrite injectRow_no_name by done. split; [done|eauto].
Qed.

Lemma injectFilterReferences_no_names filters references :
  Forall (λ row, refNameIn row = None) filters →
  injectFilterReferences filters references = Returned filters.
Proof.
  intros Hall. apply mapThrowing_Returned_Forall2.
  apply Forall2_same_length_lookup_2; [done|].
  intros i x y Hx Hy. rewrite Hx in Hy. injection Hy as <-.
  apply injectRow_no_name. rewrite Forall_forall in Hall.
  apply Hall. by eapply list_elem_of_lookup_2.
Qed.

(** X6: when injection returns, it returns one row per filter, at the same
    position; a row that names no reference is returned as it is; a row
    that names one gets, as its index, the id of the first reference of
    that name, loses [indexRefName] and keeps everything else. No returned
    row names a reference. *)
Theorem injectFilterReferences_returned filters references restored :
  injectFilterReferences filters references = Returned restored →
  length restored = length filters ∧
  ∀ i row, filters !! i = Some row →
    ∃ r, restored !! i = Some r ∧
         p_filterRest r = p_filterRest row ∧
         refNameIn r = None ∧
         match refNameIn row with
         | None => r = row
         | Some n =>
             ∃ m before reference after,
               p_meta row = Some m ∧
               references = before ++ reference :: after ∧
               (∀ ref, ref ∈ before → name ref ≠ n) ∧
               name reference = n ∧
               p_meta r = Some {| p_index := Some (id reference);
                                  p_indexRefName := None;
                                  p_value := p_value m;
                                  p_metaRest := p_metaRest m |}
         end.
Proof.
  intros H. split; [by eapply mapThrowing_length|].
  apply mapThrowing_Returned_Forall2 in H.
  intros i row Hi.
  destruct (Forall2_lookup_l _ _ _ _ _ H Hi) as (r & Hr & Hrow).
  exists r. split; [done|].
  apply injectRow_Returned in Hrow as [Hnone Hrow].
  destruct (refNameIn row) as [n|].
  - destruct Hrow as (m & reference & Hm & Hfind & ->).
    apply find_Some_split in Hfind
      as (before & after & -> & Hn%String.eqb_eq & Hbefore).
    split_and!; [done|done|].
    exists m, before, reference, after. split_and!; try done.
    intros ref Href. by apply String.eqb_neq, Hbefore.
  - by subst.
Qed.

(** X7: injection throws for the first filter, in the order of the list,
    whose reference is missing: the message names the reference of that
    filter, and every filter before it names no reference or one that is
    in the list. *)
Theorem injectFilterReferences_first_missing filters references message :
  injectFilterReferences filters references = Thrown message ↔
  ∃ before row after n,
    filters = before ++ row :: after ∧
    Forall (λ x, ∀ n', refNameIn x = Some n' →
                       ∃ ref, ref ∈ references ∧ name ref = n') before ∧
    refNameIn row = Some n ∧
    (∀ ref, ref ∈ references → name ref ≠ n) ∧
    message = "Could not find reference for " +:+ n.
Proof.
  unfold injectFilterReferences. rewrite mapThrowing_Thrown. split.
  - intros (before & row & after & -> & Hrow & Hbefore).
    destruct (refNameIn row) as [n|] eqn:Hn.
    + destruct (injectRow_name references row n Hn) as (m & _ & _ & _ & Heq).
      rewrite Heq in Hrow.
      destruct (List.find _ references) eqn:Hfind; [done|].
      injection Hrow as <-. exists before, row, after, n.
      split_and!; try done.
      * eapply Forall_impl; [exact Hbefore|]. intros x Hx.
        by apply injectRow_Returned_iff.
      * by apply find_name_None.
    + by rewrite injectRow_no_name in Hrow.
  - intros (before & row & after & n & -> & Hbefore & Hn & Hmiss & ->).
    exists before, row, after. split_and!; [done| |].
    + destruct (injectRow_name references row n Hn) as (m & _ & _ & _ & ->).
      by rewrite (proj2 (find_name_None references n) Hmiss).
    + eapply Forall_impl; [exact Hbefore|]. intros x Hx.
      by apply injectRow_Returned_iff.
Qed.

(** X8: injection returns the list it was given exactly when no filter of
    the list names a reference; the references then do not matter. *)
Theorem injectFilterReferences_unchanged_iff filters references :
  injectFilterReferences filters references = Returned filters ↔
  Forall (λ row, refNameIn row = None) filters.
Proof.
  split; [|apply injectFilterReferences_no_names].
  intros H%mapThrowing_Returned_Forall2. apply Forall_forall.
  intros row (i & Hi)%list_elem_of_lookup_1.
  destruct (Forall2_lookup_l _ _ _ _ _ H Hi) as (r & Hr & Hrow).
  rewrite Hi in Hr. injection Hr as <-.
  by apply injectRow_Returned in Hrow as [? _].
Qed.

(** X9: injection is idempotent: what it returns names no reference any
    more, so injecting again, with any references, returns the same. *)
Theorem injectFilterReferences_idempotent filters references restored other :
  injectFilterReferences filters references = Returned restored →
  injectFilterReferences restored other = Returned restored.
Proof.
  intros H%mapThrowing_Returned_Forall2.
  apply injectFilterReferences_no_names, Forall_forall.
  intros r (i & Hi)%list_elem_of_lookup_1.
  destruct (Forall2_lookup_r _ _ _ _ _ H Hi) as (row & _ & Hrow).
  by apply injectRow_Returned in Hrow as [? _].
Qed.

(** X10: references added at the end of the list change nothing: when
    injection returns with a list of references, it returns the same with
    a longer list. *)
Theorem injectFilterReferences_more_references
    filters references restored more :
  injectFilterReferences filters references = Returned restored →
  injectFilterReferences filters (references ++ more) = Returned restored.
Proof.
  intros H%mapThrowing_Returned_Forall2. apply mapThrowing_Returned_Forall2.
  eapply Forall2_impl; [exact H|]. intros row r Hrow. simpl in *.
  destruct (refNameIn row) as [n|] eqn:Hn.
  - destruct (injectRow_name references row n Hn) as (m & Hm & _ & _ & Heq).
    destruct (injectRow_name (references ++ more) row n Hn)
      as (m' & Hm' & _ & _ & ->).
    rewrite Heq in Hrow. assert (m' = m) as -> by congruence.
    destruct (List.find _ references) as [reference|] eqn:Hfind; [|done].
    by rewrite (find_app_some _ _ more _ Hfind).
  - rewrite injectRow_no_name in * by done. done.
Qed.

End InjectRows.

(** *** Saving and loading again *)

Section SaveLoad.
Context {Value MetaRest FilterRest : Type}.
Implicit Types
  (filterRow : @FilterReferences.Filter Value MetaRest FilterRest)
  (filters : list (@FilterReferences.Filter Value MetaRest FilterRest))
  (references : list SavedObjectReference).

Lemma refNameIn_asPersistable filterRow :
  refNameOnlyWithIndex filterRow →
  indexOf filterRow = None →
  refNameIn (asPersistable filterRow) = None.
Proof.
  intros Hown Hidx. specialize (Hown Hidx).
  unfold refNameIn, asPersistable. simpl.
  destruct (meta filterRow) as [m|]; [|done]. simpl.
  by rewrite (Hown m eq_refl).
Qed.

Lemma refNameIn_referringRow i m filterRow :
  refNameIn (referringRow i m filterRow) = Some (refNameOf i).
Proof. reflexivity. Qed.

Lemma indexOf_Some filterRow idx :
  indexOf filterRow = Some idx ↔
  ∃ m, meta filterRow = Some m ∧ index m = Some idx ∧ idx ≠ "".
Proof.
  unfold indexOf. destruct (meta filterRow) as [m|]; simpl.
  - rewrite truthy_Some. split; [by exists m|]. by intros (m' & [= <-] & ?).
  - split; [done|]. by intros (m & ? & _).
Qed.

(** The reference pushed for a filter is the only one of its name, in any
    list made of the extracted references and of references named
    otherwise. *)
Lemma find_extracted_reference filters references extra i filterRow idx :
  references ≡ₚ FilterReferences.references (extractFilterReferences filters)
                  ++ extra →
  (∀ ref, ref ∈ extra →
     name ref ∉ name <$> FilterReferences.references
                           (extractFilterReferences filters)) →
  filters !! i = Some filterRow →
  indexOf filterRow = Some idx →
  List.find (λ ref, String.eqb (name ref) (refNameOf i)) references
    = Some (referenceOf i idx).
Proof.
  rewrite extractFilterReferences_rowAt. simpl.
  intros Hperm Hextra Hi Hidx.
  assert (referenceOf i idx ∈ concat (imap pushedAt filters)) as Hin
    by (apply elem_of_pushed; eauto 10).
  apply find_Some_unique.
  - rewrite Hperm. apply elem_of_app. by left.
  - apply String.eqb_refl.
  - intros ref Href Hname%String.eqb_eq. rewrite Hperm in Href.
    apply elem_of_app in Href as [Href|Href].
    + eapply (NoDup_fmap_unique name); [|exact Href|exact Hin|exact Hname].
      apply (pushedAt_NoDup (λ j, j)). by intros ? ?.
    + destruct (Hextra ref Href). rewrite Hname.
      by apply (list_elem_of_fmap_2 name) in Hin.
Qed.

Lemma injectRow_rowAt filters references extra i filterRow :
  refNameOnlyWithIndex filterRow →
  references ≡ₚ FilterReferences.references (extractFilterReferences filters)
                  ++ extra →
  (∀ ref, ref ∈ extra →
     name ref ∉ name <$> FilterReferences.references
                           (extractFilterReferences filters)) →
  filters !! i = Some filterRow →
  injectRow references (rowAt i filterRow)
    = Returned (asPersistable (withoutValue filterRow)).
Proof.
  intros Hown Hperm Hextra Hi. unfold withoutValue.
  destruct (indexOf filterRow) as [idx|] eqn:Hidx.
  - destruct (rowAt_index i filterRow idx Hidx) as (m & Hm & ->).
    destruct (injectRow_name references _ _ (refNameIn_referringRow i m filterRow))
      as (m' & [= <-] & _ & _ & ->).
    rewrite (find_extracted_reference filters references extra i filterRow idx)
      by done.
    apply indexOf_Some in Hidx as (m' & Hm' & Hindex & _).
    assert (m' = m) as -> by congruence.
    unfold injectedRow, asPersistable, metaAsPersistable. simpl.
    rewrite Hm. simpl. by rewrite Hindex.
  - rewrite rowAt_no_index by done.
    by apply injectRow_no_name, refNameIn_asPersistable.
Qed.

Lemma inject_extracted filters references extra :
  Forall refNameOnlyWithIndex filters →
  references ≡ₚ FilterReferences.references (extractFilterReferences filters)
                  ++ extra →
  (∀ ref, ref ∈ extra →
     name ref ∉ name <$> FilterReferences.references
                           (extractFilterReferences filters)) →
  injectFilterReferences
    (persistableFilters (extractFilterReferences filters)) references
  = Returned (asPersistable <$> (withoutValue <$> filters)).
Proof.
  intros Hown Hperm Hextra. apply mapThrowing_Returned_Forall2.
  rewrite extractFilterReferences_rowAt. simpl.
  apply Forall2_same_length_lookup_2.
  - by rewrite length_imap, !length_fmap.
  - intros i row r. rewrite list_lookup_imap, !list_lookup_fmap.
    destruct (filters !! i) as [filterRow|] eqn:Hi; [|done]. simpl.
    intros [= <-] [= <-]. eapply injectRow_rowAt; [|done..].
    rewrite Forall_forall in Hown. apply Hown.
    by eapply list_elem_of_lookup_2.
Qed.

Lemma indexOf_withoutValue filterRow :
  indexOf (withoutValue filterRow) = indexOf filterRow.
Proof.
  unfold withoutValue. destruct (indexOf filterRow) as [idx|] eqn:Hidx; [|done].
  unfold indexOf in *. by destruct (meta filterRow).
Qed.

Lemma extractRow_withoutValue i filterRow references :
  extractRow i (withoutValue filterRow) references
    = extractRow i filterRow references.
Proof.
  destruct (indexOf filterRow) as [idx|] eqn:Hidx.
  - destruct (extractRow_index i filterRow references idx Hidx)
      as (m & Hm & ->).
    pose proof Hidx as Hidx'. rewrite <-indexOf_withoutValue in Hidx'.
    destruct (extractRow_index i _ references idx Hidx') as (m' & Hm' & ->).
    unfold withoutValue in *. rewrite Hidx in *. simpl in *.
    rewrite Hm in Hm'. injection Hm' as <-. done.
  - unfold withoutValue. by rewrite Hidx.
Qed.

(** X11: for filters that are not persisted ones (each carries
    [meta.indexRefName] only together with a truthy [meta.index]), the
    references that extraction returns may be stored in any order and
    among other references, as long as those have other names: injection
    then restores the same filters as with the references as extraction
    returned them. *)
Theorem extract_inject_any_order filters references extra :
  Forall refNameOnlyWithIndex filters →
  references ≡ₚ FilterReferences.references (extractFilterReferences filters)
                  ++ extra →
  (∀ ref, ref ∈ extra →
     name ref ∉ name <$> FilterReferences.references
                           (extractFilterReferences filters)) →
  injectFilterReferences
    (persistableFilters (extractFilterReferences filters)) references
  = injectFilterReferences
      (persistableFilters (extractFilterReferences filters))
      (FilterReferences.references (extractFilterReferences filters)).
Proof.
  intros Hown Hperm Hextra.
  rewrite (inject_extracted filters references extra) by done.
  rewrite (inject_extracted filters _ []); [done|done| |].
  - by rewrite app_nil_r.
  - by intros ref ?%elem_of_nil.
Qed.

(** X12: for filters that are not persisted ones, saving, loading and
    saving again changes nothing more: the filters that injection restores
    from what extraction returned are the filters given, without the value
    where the index was replaced, and extracting from them returns the
    same rows and the same references as the first time. *)
Theorem extract_inject_extract filters :
  Forall refNameOnlyWithIndex filters →
  ∃ loaded,
    injectFilterReferences
      (persistableFilters (extractFilterReferences filters))
      (FilterReferences.references (extractFilterReferences filters))
    = Returned (asPersistable <$> loaded) ∧
    loaded = withoutValue <$> filters ∧
    extractFilterReferences loaded = extractFilterReferences filters.
Proof.
  intros Hown. exists (withoutValue <$> filters). split_and!; [|done|].
  - apply (inject_extracted filters _ []); [done| |].
    + by rewrite app_nil_r.
    + by intros ref ?%elem_of_nil.
  - unfold extractFilterReferences.
    assert (∀ i references,
      extractFrom i (withoutValue <$> filters) references
      = extractFrom i filters references) as ->; [|done].
    clear Hown.
    induction filters as [|filterRow filters IH]; intros i references; [done|].
    cbn [fmap list_fmap extractFrom]. rewrite extractRow_withoutValue.
    destruct (extractRow i filterRow references) as [row refs].
    fold (fmap (M:=list) (@withoutValue Value MetaRest FilterRest)).
    by rewrite IH.
Qed.

End SaveLoad.

Example extract_inject_extract_two_filters :
  let logs : @Filter nat unit unit :=
    {| meta := Some {| index := Some "logs"; indexRefName := None;
                       value := Some 5; metaRest := () |};
       filterRest := () |} in
  let plain : @Filter nat unit unit :=
    {| meta := Some {| index := None; indexRefName := None;
                       value := Some 7; metaRest := () |};
       filterRest := () |} in
  ∃ loaded,
    injectFilterReferences
      (persistableFilters (extractFilterReferences [plain; logs]))
      (references (extractFilterReferences [plain; logs]))
    = Returned (asPersistable <$> loaded) ∧
    loaded = withoutValue <$> [plain; logs] ∧
    extractFilterReferences loaded = extractFilterReferences [plain; logs].
Proof.
  intros logs plain.
  apply (extract_inject_extract [plain; logs]).
  repeat constructor.
  - by intros _ m [= <-].
  - by intros H.
Defined.

(** Rows and references for the properties that have a precondition. *)
Example injectFilterReferences_returned_first_of_two :
  let row : @PersistableFilter nat unit unit :=
    {| p_meta := Some {| p_index := None; p_indexRefName := Some "a";
                         p_value := Some 5; p_metaRest := () |};
       p_filterRest := () |} in
  let restoredRow : @PersistableFilter nat unit unit :=
    {| p_meta := Some {| p_index := Some "x"; p_indexRefName := None;
                         p_value := Some 5; p_metaRest := () |};
       p_filterRest := () |} in
  length [restoredRow] = length [row].
Proof.
  intros row restoredRow.
  apply (injectFilterReferences_returned [row]
           [ {| name := "a"; type := "index-pattern"; id := "x" |};
             {| name := "a"; type := "index-pattern"; id := "y" |} ]
           [restoredRow]).
  reflexivity.
Defined.

Example injectFilterReferences_idempotent_one_row :
  let row : @PersistableFilter nat unit unit :=
    {| p_meta := Some {| p_index := None; p_indexRefName := Some "a";
                         p_value := Some 5; p_metaRest := () |};
       p_filterRest := () |} in
  let restoredRow : @PersistableFilter nat unit unit :=
    {| p_meta := Some {| p_index := Some "x"; p_indexRefName := None;
                         p_value := Some 5; p_metaRest := () |};
       p_filterRest := () |} in
  injectFilterReferences [restoredRow] [] = Returned [restoredRow].
Proof.
  intros row restoredRow.
  apply (injectFilterReferences_idempotent [row]
           [ {| name := "a"; type := "index-pattern"; id := "x" |} ]
           [restoredRow] []).
  reflexivity.
Defined.

Example injectFilterReferences_more_references_one_row :
  let row : @PersistableFilter nat unit unit :=
    {| p_meta := Some {| p_index := None; p_indexRefName := Some "a";
                         p_value := Some 5; p_metaRest := () |};
       p_filterRest := () |} in
  let restoredRow : @PersistableFilter nat unit unit :=
    {| p_meta := Some {| p_index := Some "x"; p_indexRefName := None;
                         p_value := Some 5; p_metaRest := () |};
       p_filterRest := () |} in
  injectFilterReferences [row]
    ([ {| name := "a"; type := "index-pattern"; id := "x" |} ] ++
     [ {| name := "a"; type := "index-pattern"; id := "y" |};
       {| name := "b"; type := "index-pattern"; id := "z" |} ])
  = Returned [restoredRow].
Proof.
  intros row restoredRow.
  apply (injectFilterReferences_more_references [row]
           [ {| name := "a"; type := "index-pattern"; id := "x" |} ]
           [restoredRow]).
  reflexivity.
Defined.

Example extract_inject_any_order_two_filters :
  let logs : @Filter nat unit unit :=
    {| meta := Some {| index := Some "logs"; indexRefName := None;
                       value := Some 5; metaRest := () |};
       filterRest := () |} in
  let metrics : @Filter nat unit unit :=
    {| meta := Some {| index := Some "metrics"; indexRefName := None;
                       value := None; metaRest := () |};
       filterRest := () |} in
  let other : SavedObjectReference :=
    {| name := "layer-1"; type := "index-pattern"; id := "traces" |} in
  injectFilterReferences
    (persistableFilters (extractFilterReferences [logs; metrics]))
    [ other;
      {| name := "filter-index-pattern-1"; type := "index-pattern";
         id := "metrics" |};
      {| name := "filter-index-pattern-0"; type := "index-pattern";
         id := "logs" |} ]
  = injectFilterReferences
      (persistableFilters (extractFilterReferences [logs; metrics]))
      (references (extractFilterReferences [logs; metrics])).
Proof.
  intros logs metrics other.
  apply (extract_inject_any_order [logs; metrics] _ [other]).
  - repeat constructor; by intros H.
  - exact (reverse_Permutation
             (references (extractFilterReferences [logs; metrics]) ++ [other])).
  - intros ref ->%list_elem_of_singleton. vm_compute.
    by intros [[=]|[[=]|?%elem_of_nil]%elem_of_cons]%elem_of_cons.
Defined.

(** Two filters, the first with an index pattern and a value. *)
Example extractFilterReferences_two_filters :
  let withIndex : @Filter nat unit unit :=
    {| meta := Some {| index := Some "logs"; indexRefName := None;
                       value := Some 5; metaRest := () |};
       filterRest := () |} in
  let withoutMeta : @Filter nat unit unit :=
    {| meta := None; filterRest := () |} in
  extractFilterReferences [withoutMeta; withIndex] =
  {| persistableFilters :=
       [ {| p_meta := None; p_filterRest := () |};
         {| p_meta := Some {| p_index := None;
                              p_indexRefName := Some "filter-index-pattern-1";
                              p_value := None; p_metaRest := () |};
            p_filterRest := () |} ];
     references :=
       [ {| name := "filter-index-pattern-1"; type := "index-pattern";
            id := "logs" |} ] |}.
Proof. reflexivity. Qed.

Example injectFilterReferences_missing_reference :
  let row : @PersistableFilter nat unit unit :=
    {| p_meta := Some {| p_index := None;
                         p_indexRefName := Some "filter-index-pattern-1";
                         p_value := None; p_metaRest := () |};
       p_filterRest := () |} in
  injectFilterReferences [row]
    [ {| name := "filter-index-pattern-0"; type := "index-pattern";
         id := "logs" |} ]
  = Thrown "Could not find reference for filter-index-pattern-1".
Proof. reflexivity. Qed.

End FilterReferencesFacts.

(** ** The bfetch routes *)

Module BfetchFacts.
Import Bfetch.

(** *** The compression flag and the response *)

Lemma headerIs_true v s : headerIs v s = true ↔ v = Some (HeaderString s).
Proof.
  unfold headerIs. destruct v as [[s'|l]|]; try by split.
  rewrite String.eqb_eq. split; [by intros ->|by intros [= ->]].
Qed.

(** C1 (as corrected): the response stream is compressed exactly when the
    request carries the header x-chunk-encoding with the value "deflate";
    compression is disabled when the header is absent or has any other
    value, so that no compression is the default. *)
Theorem getCompressionDisabled_iff {Body : Type} (request : KibanaRequest Body) :
  (getCompressionDisabled request = false ↔
   headers request !! "x-chunk-encoding" = Some (HeaderString "deflate")) ∧
  (getCompressionDisabled request = true ↔
   headers request !! "x-chunk-encoding" ≠ Some (HeaderString "deflate")).
Proof.
  unfold getCompressionDisabled.
  rewrite negb_false_iff, negb_true_iff, <-not_true_iff_false.
  by rewrite headerIs_true.
Qed.

(** C1 (as stated) fails: with the header x-chunk-encoding: deflate the flag
    that disables compression is off. *)
Lemma getCompressionDisabled_deflate_header :
  let request : KibanaRequest unit :=
    {| headers := {[ "x-chunk-encoding" := HeaderString "deflate" ]};
       body := () |} in
  ¬ (getCompressionDisabled request = true ↔
     headers request !! "x-chunk-encoding" = Some (HeaderString "deflate")).
Proof.
  intros request [_ H].
  assert (getCompressionDisabled request = false) as Hoff by reflexivity.
  rewrite H in Hoff; [done|]. reflexivity.
Qed.

(** C7: every response of the streaming route and of the streaming request
    handler, and so of the batch processing route whatever its item handlers
    do, has status 200 and the headers Content-Type: application/x-ndjson,
    Connection: keep-alive and Transfer-Encoding: chunked. *)
Theorem streaming_response_status_and_headers
    {Payload Response BatchItemData BatchItemResult ErrorValue ErrorRest Body
     HandlerContext : Type}
    (createStream : @Subscription ErrorValue Response → bool → Body)
    (handler : KibanaRequest Payload → Payload → @Subscription ErrorValue Response)
    (streamHandler : HandlerContext → KibanaRequest Payload →
                     @Subscription ErrorValue Response)
    (context : HandlerContext)
    (request : KibanaRequest Payload)
    (normalizeError : ErrorValue → ErrorLike ErrorRest)
    (createBatchStream :
       @Subscription ErrorValue (BatchResponseItem BatchItemResult ErrorRest) →
       bool → Body)
    (batchHandler : KibanaRequest (BatchRequestData BatchItemData) →
                    BatchItemData → @Call ErrorValue BatchItemResult)
    (batchRequest : KibanaRequest (BatchRequestData BatchItemData)) :
  let sent (response : HttpResponse Body) :=
    status response = 200 ∧
    responseHeaders response !! "Content-Type" = Some "application/x-ndjson" ∧
    responseHeaders response !! "Connection" = Some "keep-alive" ∧
    responseHeaders response !! "Transfer-Encoding" = Some "chunked" in
  sent (addStreamingResponseRoute createStream handler request) ∧
  sent (createStreamingRequestHandler createStream streamHandler context request) ∧
  sent (addBatchProcessingRoute normalizeError createBatchStream batchHandler
          batchRequest).
Proof. by repeat split. Qed.

(** *** Streams whose promises never reject *)

Section StreamFacts.
Context {ErrorValue A : Type}.
Abbreviation Promise := (@Promise ErrorValue A).
Abbreviation Subscription := (@Subscription ErrorValue A).
Implicit Types (p : Promise) (ps : list Promise) (s : Subscription).

Lemma deliver_fulfilled ps : ∀ s,
  fulfilledOnly ps →
  deliver ps s =
  {| emitted := emitted s ++ dueAt 0 ps;
     inFlight := inFlight s ++ later ps;
     failure := failure s |}.
Proof.
  induction ps as [|p ps IH]; intros s Hps.
  - simpl. unfold dueAt, later. simpl. rewrite !app_nil_r. by destruct s.
  - apply Forall_cons in Hps as [[v Hv] Hps].
    unfold dueAt, later in *. cbn [deliver].
    destruct (decide (settlesAfter p = 0)) as [Hn|Hn].
    + rewrite filter_cons_True, filter_cons_False by (done || lia).
      rewrite Hn. cbn [omap list_omap]. rewrite Hv.
      unfold valueOf in Hv. destruct (settlement p) as [value|]; [|done].
      injection Hv as ->. rewrite IH by done. simpl.
      by rewrite <-app_assoc.
    + rewrite filter_cons_False, filter_cons_True by (done || lia).
      destruct (settlesAfter p) as [|n] eqn:Hsa; [lia|].
      rewrite IH by done. simpl. rewrite Hsa. simpl. by rewrite <-app_assoc.
Qed.

Lemma later_fulfilledOnly ps : fulfilledOnly ps → fulfilledOnly (later ps).
Proof.
  unfold fulfilledOnly, later. intros H.
  rewrite Forall_fmap. apply Forall_forall.
  intros p [_ Hp]%list_elem_of_filter.
  rewrite Forall_forall in H. exact (H p Hp).
Qed.

Lemma dueAt_later t ps : dueAt t (later ps) = dueAt (S t) ps.
Proof.
  unfold dueAt, later. induction ps as [|p ps IH]; [done|].
  destruct (decide (settlesAfter p = 0)) as [H0|H0].
  - rewrite filter_cons_False by (intros ?; lia).
    rewrite (filter_cons_False (λ p, settlesAfter p = S t)) by lia.
    exact IH.
  - rewrite filter_cons_True by done. rewrite fmap_cons.
    destruct (decide (settlesAfter p = S t)) as [Ht|Ht].
    + rewrite !filter_cons_True by (simpl; lia).
      rewrite !omap_cons_match, IH. done.
    + rewrite !filter_cons_False by (simpl; lia). exact IH.
Qed.

Lemma later_settlesAfter k ps :
  Forall (λ p, settlesAfter p < S k) ps →
  Forall (λ p, settlesAfter p < k) (later ps).
Proof.
  unfold later. intros H. rewrite Forall_fmap. apply Forall_forall.
  intros p [Hp Hin]%list_elem_of_filter. rewrite Forall_forall in H.
  specialize (H p Hin). simpl in *. lia.
Qed.

Lemma tick_fulfilled s :
  failure s = None → fulfilledOnly (inFlight s) →
  tick s = {| emitted := emitted s ++ dueAt 0 (inFlight s);
              inFlight := later (inFlight s); failure := None |}.
Proof. intros Hf Hps. unfold tick. rewrite Hf. by rewrite deliver_fulfilled. Qed.

(** The stream after [k] turns: what was emitted before, then, turn by
    turn, the values of the promises that settled in that turn, in the
    order the promises were started. *)
Lemma after_fulfilled k : ∀ s,
  failure s = None → fulfilledOnly (inFlight s) →
  emitted (after k s) =
    emitted s ++ concat ((λ t, dueAt t (inFlight s)) <$> seq 0 k) ∧
  failure (after k s) = None ∧
  (Forall (λ p, settlesAfter p < k) (inFlight s) → inFlight (after k s) = []).
Proof.
  induction k as [|k IH]; intros s Hf Hps.
  - simpl. rewrite app_nil_r. split_and!; [done|done|].
    intros H. destruct (inFlight s) as [|p ps]; [done|].
    apply Forall_cons in H as [H _]. lia.
  - simpl. rewrite (tick_fulfilled s) by done.
    destruct (IH {| emitted := emitted s ++ dueAt 0 (inFlight s);
                    inFlight := later (inFlight s); failure := None |})
      as (He & Hf' & Hin); [done|by apply later_fulfilledOnly|].
    simpl in *. split_and!; [|done|].
    + rewrite He, <-app_assoc. f_equal. f_equal.
      rewrite <-fmap_S_seq, <-list_fmap_compose. f_equal.
      apply list_fmap_ext. intros _ t _. simpl. apply dueAt_later.
    + intros H. by apply Hin, later_settlesAfter.
Qed.

Lemma dueBefore_S k ps : dueBefore (S k) ps ≡ₚ dueBefore k ps ++ dueAt k ps.
Proof.
  unfold dueBefore, dueAt. induction ps as [|p ps IH]; [done|].
  destruct (decide (settlesAfter p < k)); [|destruct (decide (settlesAfter p = k))].
  - rewrite !filter_cons_True, filter_cons_False by lia.
    rewrite !omap_cons_match. destruct (valueOf p); simpl; by rewrite IH.
  - rewrite filter_cons_True, filter_cons_False, filter_cons_True by lia.
    rewrite !omap_cons_match. destruct (valueOf p); rewrite IH; [|done].
    by rewrite Permutation_middle.
  - rewrite !filter_cons_False by lia. exact IH.
Qed.

Lemma concat_dueAt k ps :
  concat ((λ t, dueAt t ps) <$> seq 0 k) ≡ₚ dueBefore k ps.
Proof.
  induction k as [|k IH].
  - simpl. unfold dueBefore. induction ps as [|p ps IHps]; [done|].
    rewrite filter_cons_False by lia. exact IHps.
  - rewrite seq_S, fmap_app, concat_app, dueBefore_S, IH. simpl.
    by rewrite app_nil_r.
Qed.

Lemma dueBefore_all k ps :
  Forall (λ p, settlesAfter p < k) ps → dueBefore k ps = omap valueOf ps.
Proof.
  unfold dueBefore. induction ps as [|p ps IH]; [done|].
  intros [Hp Hps]%Forall_cons. rewrite filter_cons_True by done.
  rewrite !omap_cons_match. by rewrite IH.
Qed.

Lemma dueBefore_sublist k ps : dueBefore k ps `sublist_of` omap valueOf ps.
Proof.
  unfold dueBefore. induction ps as [|p ps IH]; [done|].
  destruct (decide (settlesAfter p < k)).
  - rewrite filter_cons_True by done. rewrite !omap_cons_match.
    destruct (valueOf p); [by constructor|done].
  - rewrite filter_cons_False by done. rewrite !omap_cons_match.
    destruct (valueOf p); [by constructor|done].
Qed.

Lemma elem_of_dueAt x t ps :
  x ∈ dueAt t ps ↔ ∃ p, p ∈ ps ∧ settlesAfter p = t ∧ valueOf p = Some x.
Proof.
  unfold dueAt. rewrite list_elem_of_omap. setoid_rewrite list_elem_of_filter.
  split; intros (p & H); exists p; tauto.
Qed.

Lemma elem_of_dueBefore x k ps :
  x ∈ dueBefore k ps ↔ ∃ p, p ∈ ps ∧ settlesAfter p < k ∧ valueOf p = Some x.
Proof.
  unfold dueBefore. rewrite list_elem_of_omap. setoid_rewrite list_elem_of_filter.
  split; intros (p & H); exists p; tauto.
Qed.

(** A value that settles in an earlier turn is written first. *)
Lemma concat_dueAt_precedes x y tx ty k ps :
  tx < ty → ty < k → x ∈ dueAt tx ps → y ∈ dueAt ty ps →
  precedes x y (concat ((λ t, dueAt t ps) <$> seq 0 k)).
Proof.
  intros Hlt Hk Hx Hy.
  replace k with (ty + S (k - S ty)) by lia.
  rewrite seq_app, fmap_app, concat_app. simpl.
  assert (x ∈ concat ((λ t, dueAt t ps) <$> seq 0 ty)) as Hx'.
  { rewrite concat_dueAt. apply elem_of_dueBefore. apply elem_of_dueAt in Hx as (p & ? & ? & ?).
    exists p. split_and!; [done|lia|done]. }
  apply list_elem_of_split in Hx' as (l1 & l2 & ->).
  apply list_elem_of_split in Hy as (d1 & d2 & ->).
  exists l1, (l2 ++ d1), (d2 ++ concat ((λ t, dueAt t ps) <$> seq (S ty) (k - S ty))).
  by rewrite <-!app_assoc.
Qed.

End StreamFacts.

(** *** The batch processing route *)

Section BatchFacts.
Context {BatchItemData BatchItemResult ErrorValue ErrorRest : Type}.
Variable normalizeError : ErrorValue → ErrorLike ErrorRest.
Variable onBatchItem : BatchItemData → @Call ErrorValue BatchItemResult.

Abbreviation callback := (batchItemCallback normalizeError onBatchItem).
Abbreviation record := (recordOf normalizeError onBatchItem).
Abbreviation stream := (getResponseStream normalizeError onBatchItem).
Abbreviation started items := (imap (λ id item, callback item id) items).

Implicit Types (data : BatchRequestData BatchItemData)
               (items : list BatchItemData) (item : BatchItemData).

Lemma callback_valueOf item i : valueOf (callback item i) = Some (record item i).
Proof.
  unfold valueOf, recordOf, batchItemCallback.
  destruct (onBatchItem item) as [promise|reason]; [|done].
  by destruct (settlement promise).
Qed.

Lemma callback_settlesAfter item i :
  settlesAfter (callback item i) = settlesAt onBatchItem item.
Proof.
  unfold settlesAt, batchItemCallback.
  destruct (onBatchItem item) as [promise|reason]; [|done].
  by destruct (settlement promise).
Qed.

Lemma record_id item i : id (record item i) = i.
Proof.
  unfold recordOf, batchItemCallback.
  destruct (onBatchItem item) as [promise|reason]; [|done].
  by destruct (settlement promise).
Qed.

(** The record of an item whose handler fails. *)
Lemma record_failed item i reason :
  failsWith onBatchItem item reason →
  record item i =
  {| id := i; result := None; error := Some (normalizeError reason) |}.
Proof.
  unfold failsWith, recordOf, batchItemCallback.
  intros [->|(promise & -> & ->)]; done.
Qed.

Lemma elem_of_started p items :
  p ∈ started items ↔ ∃ i item, items !! i = Some item ∧ p = callback item i.
Proof.
  rewrite elem_of_lookup_imap. split; intros (i & item & H1 & H2); eauto.
Qed.

Lemma started_fulfilledOnly items : fulfilledOnly (started items).
Proof.
  apply Forall_forall. intros p (i & item & _ & ->)%elem_of_started.
  rewrite callback_valueOf. eauto.
Qed.

Lemma started_values items :
  omap valueOf (started items) = imap (λ id item, record item id) items.
Proof.
  assert (∀ (f : nat → nat) items,
    omap valueOf (imap (λ id item, callback item (f id)) items) =
    imap (λ id item, record item (f id)) items) as H.
  { clear. intros f items. revert f.
    induction items as [|item items IH]; intros f; [done|].
    rewrite !imap_cons, omap_cons_match, callback_valueOf. f_equal.
    apply (IH (f ∘ S)). }
  apply (H (λ i, i)).
Qed.

Lemma record_ids items :
  id <$> imap (λ id item, record item id) items = seq 0 (length items).
Proof.
  rewrite fmap_imap. rewrite (imap_ext _ (λ i _, i)).
  - rewrite imap_seq_0. apply list_fmap_id.
  - intros i item _. apply record_id.
Qed.

Lemma started_deadline items k :
  deadline onBatchItem items ≤ k → Forall (λ p, settlesAfter p < k) (started items).
Proof.
  intros Hk. apply Forall_forall.
  intros p (i & item & Hi & ->)%elem_of_started.
  rewrite callback_settlesAfter. unfold deadline in Hk.
  assert (settlesAt onBatchItem item ≤ max_list (settlesAt onBatchItem <$> items)).
  { apply max_list_elem_of_le, list_elem_of_fmap.
    exists item. split; [done|]. by eapply list_elem_of_lookup_2. }
  lia.
Qed.

(** The stream of a batch after [k] turns. *)
Lemma stream_after data k :
  emitted (after k (stream data)) =
    concat ((λ t, dueAt t (started (batch data))) <$> seq 0 k) ∧
  failure (after k (stream data)) = None ∧
  (deadline onBatchItem (batch data) ≤ k → inFlight (after k (stream data)) = []).
Proof.
  destruct (after_fulfilled k (stream data)) as (He & Hf & Hin);
    [done|apply started_fulfilledOnly|].
  split_and!; [done|done|].
  intros Hk. by apply Hin, started_deadline.
Qed.

Lemma stream_after_Permutation data k :
  emitted (after k (stream data)) ≡ₚ dueBefore k (started (batch data)).
Proof.
  destruct (stream_after data k) as (-> & _). apply concat_dueAt.
Qed.

(** The record of an item is in the stream exactly from the turn after
    its own handler settles. *)
Lemma elem_of_stream_after data k i item :
  batch data !! i = Some item →
  record item i ∈ emitted (after k (stream data)) ↔
  settlesAt onBatchItem item < k.
Proof.
  intros Hi. rewrite stream_after_Permutation, elem_of_dueBefore. split.
  - intros (p & (j & item' & Hj & ->)%elem_of_started & Hlt & Hv).
    rewrite callback_valueOf in Hv. injection Hv as Hv.
    assert (j = i) as ->.
    { by rewrite <-(record_id item' j), Hv, record_id. }
    rewrite callback_settlesAfter in Hlt. congruence.
  - intros Hlt. exists (callback item i). split_and!.
    + apply elem_of_started. eauto.
    + by rewrite callback_settlesAfter.
    + apply callback_valueOf.
Qed.

(** Every record of the stream is the record of the item at the position
    that its [id] names. *)
Lemma stream_after_record data k r :
  r ∈ emitted (after k (stream data)) →
  ∃ item, batch data !! id r = Some item ∧ r = record item (id r).
Proof.
  rewrite stream_after_Permutation, elem_of_dueBefore.
  intros (p & (j & item & Hj & ->)%elem_of_started & _ & Hv).
  rewrite callback_valueOf in Hv. injection Hv as <-.
  rewrite record_id. eauto.
Qed.

Lemma stream_after_deadline data k :
  deadline onBatchItem (batch data) ≤ k →
  completed (after k (stream data)) ∧
  emitted (after k (stream data)) ≡ₚ
    imap (λ id item, record item id) (batch data).
Proof.
  intros Hk. destruct (stream_after data k) as (_ & Hf & Hin).
  split; [split; auto|].
  rewrite stream_after_Permutation, dueBefore_all, started_values; [done|].
  by apply started_deadline.
Qed.

Lemma record_dueAt data i item :
  batch data !! i = Some item →
  record item i ∈ dueAt (settlesAt onBatchItem item) (started (batch data)).
Proof.
  intros Hi. apply elem_of_dueAt. exists (callback item i). split_and!.
  - apply elem_of_started. eauto.
  - apply callback_settlesAfter.
  - apply callback_valueOf.
Qed.

Lemma record_expected item i :
  record item i = expectedRecord normalizeError onBatchItem item i.
Proof.
  unfold recordOf, expectedRecord, batchItemCallback.
  destruct (onBatchItem item) as [promise|reason]; [|done].
  by destruct (settlement promise).
Qed.

Lemma filter_id_none (h : nat → nat) c items :
  (∀ j, h j ≠ c) →
  filter (λ r, id r = c) (imap (λ j item, record item (h j)) items) = [].
Proof.
  revert h. induction items as [|item items IH]; intros h Hh; [done|].
  rewrite imap_cons, filter_cons_False by (rewrite record_id; apply Hh).
  apply (IH (h ∘ S)). intros j. apply Hh.
Qed.

(** Among the records of the items, one only carries a given position. *)
Lemma filter_id_imap (h : nat → nat) items : ∀ j item,
  Inj (=) (=) h →
  items !! j = Some item →
  filter (λ r, id r = h j) (imap (λ j item, record item (h j)) items)
  = [record item (h j)].
Proof.
  revert h. induction items as [|x items IH]; intros h j item Hh Hj; [done|].
  rewrite imap_cons. destruct j as [|j]; simpl in Hj.
  - injection Hj as ->. rewrite filter_cons_True by apply record_id.
    f_equal. apply (filter_id_none (h ∘ S)).
    intros j Hj%Hh. done.
  - rewrite filter_cons_False.
    + apply (IH (h ∘ S) j item); [|done]. intros i1 i2 H12%Hh. by injection H12.
    + rewrite record_id. intros H0%Hh. done.
Qed.

(** C2: for a batch of N items the stream ends, after finitely many
    steps, with exactly N records, one for each submitted item: from some
    step on the stream is complete, what it emitted is, up to the order,
    the list of the results of the items (the payload of the handler when
    it succeeds, the normalised error when it throws or rejects, each with
    the position of its item), and for each position exactly one emitted
    record carries it; before that the stream never holds more than N
    records. *)
Theorem batch_one_record_per_item data :
  (∀ k, length (emitted (after k (stream data))) ≤ length (batch data)) ∧
  ∃ T, ∀ k, T ≤ k →
    completed (after k (stream data)) ∧
    length (emitted (after k (stream data))) = length (batch data) ∧
    emitted (after k (stream data)) ≡ₚ
      imap (λ id item, expectedRecord normalizeError onBatchItem item id)
        (batch data) ∧
    ∀ i item, batch data !! i = Some item →
      filter (λ r, id r = i) (emitted (after k (stream data)))
      = [expectedRecord normalizeError onBatchItem item i].
Proof.
  split.
  - intros k. rewrite stream_after_Permutation.
    rewrite (sublist_length _ _ (dueBefore_sublist k _)).
    by rewrite started_values, length_imap.
  - exists (deadline onBatchItem (batch data)). intros k Hk.
    destruct (stream_after_deadline data k Hk) as [Hc Hp].
    split_and!; [done| | |].
    + by rewrite Hp, length_imap.
    + rewrite Hp.
      rewrite (imap_ext _
                 (λ id item, expectedRecord normalizeError onBatchItem item id));
        [done|].
      intros i item _. apply record_expected.
    + intros i item Hi. apply Permutation_singleton_r.
      rewrite Hp, <-record_expected.
      pose proof (filter_id_imap (λ j, j) (batch data) i item) as Hone.
      simpl in Hone. rewrite Hone; [done| |done]. by intros ? ?.
Qed.

(** C3: at every moment the ids of the emitted records are pairwise
    distinct and each record is the record of the item at the 0-based
    position that its id names; once the stream is complete the ids are
    exactly the positions 0 .. N-1. *)
Theorem batch_record_ids data :
  (∀ k, NoDup (id <$> emitted (after k (stream data))) ∧
        ∀ r, r ∈ emitted (after k (stream data)) →
             ∃ item, batch data !! id r = Some item ∧ r = record item (id r)) ∧
  ∃ T, ∀ k, T ≤ k →
    id <$> emitted (after k (stream data)) ≡ₚ seq 0 (length (batch data)).
Proof.
  split.
  - intros k. split; [|apply stream_after_record].
    rewrite stream_after_Permutation.
    apply (sublist_NoDup _ (id <$> omap valueOf (started (batch data)))).
    + rewrite started_values, record_ids. apply NoDup_seq.
    + apply fmap_sublist, dueBefore_sublist.
  - exists (deadline onBatchItem (batch data)). intros k Hk.
    destruct (stream_after_deadline data k Hk) as [_ Hp].
    by rewrite Hp, record_ids.
Qed.

(** C4: when the handler of an item throws or rejects, the callback
    catches it: its promise is fulfilled with the record
    [{ id, error: normalizeError(error) }]; that record is in the stream
    from the step after the callback settles, the stream never ends with
    an error, and it completes with the records of all the items of the
    batch. *)
Theorem batch_handler_failure data i item reason :
  batch data !! i = Some item →
  failsWith onBatchItem item reason →
  let failureRecord :=
    {| id := i; result := None; error := Some (normalizeError reason) |} in
  settlement (callback item i) = Fulfilled failureRecord ∧
  (∀ k, failure (after k (stream data)) = None ∧
        (failureRecord ∈ emitted (after k (stream data)) ↔
         settlesAt onBatchItem item < k)) ∧
  ∃ T, ∀ k, T ≤ k →
    completed (after k (stream data)) ∧
    failureRecord ∈ emitted (after k (stream data)) ∧
    emitted (after k (stream data)) ≡ₚ
      imap (λ id item, record item id) (batch data).
Proof.
  intros Hi Hfail failureRecord.
  pose proof (record_failed item i reason Hfail) as Hrec.
  fold failureRecord in Hrec. split_and!.
  - pose proof (callback_valueOf item i) as Hv. unfold valueOf in Hv.
    destruct (settlement (callback item i)); [|done]. congruence.
  - intros k. split; [apply stream_after|].
    rewrite <-Hrec. by apply elem_of_stream_after.
  - exists (deadline onBatchItem (batch data)). intros k Hk.
    destruct (stream_after_deadline data k Hk) as [Hc Hp].
    split_and!; [done| |done].
    rewrite <-Hrec. apply elem_of_stream_after; [done|].
    pose proof (started_deadline (batch data) k Hk) as Hall.
    rewrite Forall_forall in Hall.
    rewrite <-(callback_settlesAfter item i). apply Hall.
    apply elem_of_started. eauto.
Qed.

(** C5 (as corrected): the records are in the stream in the order in
    which the callbacks settle, whatever the positions of the items: when
    the callback of item B settles in an earlier step than the callback of
    item A, the record of B is written before the record of A. A callback
    settles at once when its handler throws and one step after the promise
    of its handler otherwise: the callback of B settles earlier than that
    of A exactly when the handler of B settles in an earlier step than the
    handler of A, or throws while the handler of A returns a promise. No
    item waits for another: the record
    of an item is in the stream from the step after its own callback
    settles, whatever the other handlers do. *)
Theorem batch_completion_order data a b itemA itemB k :
  batch data !! a = Some itemA →
  batch data !! b = Some itemB →
  settlesAt onBatchItem itemB < settlesAt onBatchItem itemA →
  settlesAt onBatchItem itemA < k →
  precedes (record itemB b) (record itemA a) (emitted (after k (stream data))) ∧
  (settlesAt onBatchItem itemB < settlesAt onBatchItem itemA ↔
   handlerSettlesAt onBatchItem itemB < handlerSettlesAt onBatchItem itemA ∨
   ((∃ reason, onBatchItem itemB = Throws reason) ∧
    (∃ promise, onBatchItem itemA = Returns promise))) ∧
  ∀ i item k', batch data !! i = Some item →
    (record item i ∈ emitted (after k' (stream data)) ↔
     settlesAt onBatchItem item < k').
Proof.
  intros Ha Hb Hlt Hk. split_and!.
  - destruct (stream_after data k) as (-> & _).
    eapply concat_dueAt_precedes; [exact Hlt|exact Hk|..];
      by apply record_dueAt.
  - clear. unfold settlesAt, handlerSettlesAt.
    destruct (onBatchItem itemB) as [pB|rB], (onBatchItem itemA) as [pA|rA].
    + split; [intros H; left; lia|]. intros [H|[[? [=]] _]]. lia.
    + split; [lia|]. intros [H|[_ [? [=]]]]. lia.
    + split; [intros _; right; eauto|]. intros _. lia.
    + split; [lia|]. intros [H|[_ [? [=]]]]. lia.
  - intros i item k' Hi. by apply elem_of_stream_after.
Qed.


End BatchFacts.

(** The scenario of the specification: the handler of the first item takes
    100 turns, that of the second item one turn. *)
Lemma batch_completion_order_slow_fast :
  let onBatchItem (turns : nat) : @Call string nat :=
    Returns {| settlesAfter := turns; settlement := Fulfilled turns |} in
  let normalizeError (reason : string) : ErrorLike unit :=
    {| message := reason; errorRest := () |} in
  precedes
    {| id := 1; result := Some 1; error := None |}
    {| id := 0; result := Some 100; error := None |}
    (emitted (after 102 (getResponseStream normalizeError onBatchItem
                           {| batch := [100; 1] |}))).
Proof.
  intros onBatchItem normalizeError.
  apply (batch_completion_order normalizeError onBatchItem
           {| batch := [100; 1] |} 0 1 100 1 102);
    [reflexivity|reflexivity|..]; unfold settlesAt, onBatchItem; simpl; lia.
Defined.

(** C5 (as stated) fails: the handler of the first item returns a promise
    that is fulfilled already, the handler of the second item, called
    after it, throws; the first handler has settled before the second,
    and the record of the second item is written first. *)
Lemma batch_completion_order_throw_overtakes :
  let onBatchItem (op : bool) : @Call string nat :=
    if op then Returns {| settlesAfter := 0; settlement := Fulfilled 7 |}
    else Throws "boom" in
  let normalizeError (reason : string) : ErrorLike unit :=
    {| message := reason; errorRest := () |} in
  let data := {| batch := [true; false] |} in
  ¬ (∀ a b itemA itemB k,
       batch data !! a = Some itemA →
       batch data !! b = Some itemB →
       handlerSettlesBefore onBatchItem b itemB a itemA →
       recordOf normalizeError onBatchItem itemA a
         ∈ emitted (after k (getResponseStream normalizeError onBatchItem data)) →
       precedes (recordOf normalizeError onBatchItem itemB b)
                (recordOf normalizeError onBatchItem itemA a)
                (emitted (after k
                   (getResponseStream normalizeError onBatchItem data)))).
Proof.
  intros onBatchItem normalizeError data H.
  destruct (H 1 0 false true 2) as (l1 & l2 & l3 & Hl).
  - reflexivity.
  - reflexivity.
  - right. unfold handlerSettlesAt, onBatchItem. simpl. lia.
  - vm_compute. apply list_elem_of_here.
  - vm_compute in Hl. destruct l1 as [|x1 [|x2 l1]]; simplify_eq/=.
    + by destruct l2.
    + by destruct l1.
Qed.

(** A handler that throws for the second item of two. *)
Lemma batch_handler_failure_ok_throw :
  let onBatchItem (op : bool) : @Call string nat :=
    if op then Returns {| settlesAfter := 2; settlement := Fulfilled 7 |}
    else Throws "boom" in
  let normalizeError (reason : string) : ErrorLike unit :=
    {| message := reason; errorRest := () |} in
  let data := {| batch := [true; false] |} in
  let failureRecord :=
    {| id := 1; result := None;
       error := Some {| message := "boom"; errorRest := () |} |} in
  settlement (batchItemCallback normalizeError onBatchItem false 1)
    = Fulfilled failureRecord ∧
  (∀ k, failure (after k (getResponseStream normalizeError onBatchItem data)) = None ∧
        (failureRecord ∈ emitted (after k (getResponseStream normalizeError onBatchItem data)) ↔
         0 < k)) ∧
  ∃ T, ∀ k, T ≤ k →
    completed (after k (getResponseStream normalizeError onBatchItem data)) ∧
    failureRecord ∈ emitted (after k (getResponseStream normalizeError onBatchItem data)) ∧
    emitted (after k (getResponseStream normalizeError onBatchItem data)) ≡ₚ
      [ {| id := 0; result := Some 7; error := None |}; failureRecord ].
Proof.
  intros onBatchItem normalizeError data failureRecord.
  apply (batch_handler_failure normalizeError onBatchItem data 1 false "boom");
    [reflexivity|left; reflexivity].
Defined.

(** The scenarios of the specification. *)
Example stream_slow_fast :
  let onBatchItem (turns : nat) : @Call string nat :=
    Returns {| settlesAfter := turns; settlement := Fulfilled turns |} in
  let normalizeError (reason : string) : ErrorLike unit :=
    {| message := reason; errorRest := () |} in
  let s k := after k (getResponseStream normalizeError onBatchItem
                        {| batch := [100; 1] |}) in
  emitted (s 2) = [] ∧
  emitted (s 3) = [ {| id := 1; result := Some 1; error := None |} ] ∧
  emitted (s 102) = [ {| id := 1; result := Some 1; error := None |};
                      {| id := 0; result := Some 100; error := None |} ] ∧
  inFlight (s 102) = [] ∧ failure (s 102) = None.
Proof. by vm_compute. Qed.

Example stream_ok_throw_reject :
  let onBatchItem (op : nat) : @Call string nat :=
    match op with
    | 0 => Returns {| settlesAfter := 2; settlement := Fulfilled 7 |}
    | 1 => Throws "thrown"
    | _ => Returns {| settlesAfter := 1; settlement := Rejected "rejected" |}
    end in
  let normalizeError (reason : string) : ErrorLike unit :=
    {| message := reason; errorRest := () |} in
  after 4 (getResponseStream normalizeError onBatchItem
             {| batch := [0; 1; 2] |}) =
  {| emitted :=
       [ {| id := 1; result := None;
            error := Some {| message := "thrown"; errorRest := () |} |};
         {| id := 2; result := None;
            error := Some {| message := "rejected"; errorRest := () |} |};
         {| id := 0; result := Some 7; error := None |} ];
     inFlight := []; failure := None |}.
Proof. reflexivity. Qed.

(** A rejection that reaches [map$] ends the stream; the callback of the
    batch route never lets one through. *)
Example map_dollar_rejection :
  after 2 (map_dollar [0; 1; 2]
             (λ item id,
                {| settlesAfter := item;
                   settlement := if decide (item = 1) then Rejected "broken"
                                 else Fulfilled id |})) =
  {| emitted := [0]; inFlight := []; failure := Some "broken" |}.
Proof. reflexivity. Qed.

(** *** The body of the response, with and without compression *)

Section StreamingFacts.
Import Streaming.
Context {Payload Response ErrorValue : Type}.
Variable stringify : Response → string.
Variable parse : string → option Response.
Variable deflate : list string → string.
Variable inflate : string → option string.

Lemma splitOnNewline_line line written :
  hasNewline line = false →
  splitOnNewline (line +:+ String newline written) =
  line :: splitOnNewline written.
Proof.
  induction line as [|c line IH]; intros Hline.
  - change (EmptyString +:+ String newline written)
      with (String newline written).
    cbn [splitOnNewline]. by rewrite Ascii.eqb_refl.
  - change (String c line +:+ String newline written)
      with (String c (line +:+ String newline written)).
    cbn [splitOnNewline hasNewline] in *.
    apply orb_false_iff in Hline as [-> Hline]. by rewrite IH.
Qed.

Lemma writeLine_app (record : Response) written :
  writeLine stringify record +:+ written
  = stringify record +:+ String newline written.
Proof.
  unfold writeLine. induction (stringify record) as [|c line IH]; [done|].
  change (String c line +:+ String newline EmptyString)
    with (String c (line +:+ String newline EmptyString)).
  change (String c (line +:+ String newline EmptyString) +:+ written)
    with (String c ((line +:+ String newline EmptyString) +:+ written)).
  by rewrite IH.
Qed.

(** The text of the records, cut at the newlines, is their lines. *)
Lemma splitOnNewline_joined (records : list Response) :
  (∀ record, hasNewline (stringify record) = false) →
  splitOnNewline (joined (writeLine stringify <$> records)) =
  (stringify <$> records) ++ [EmptyString].
Proof.
  intros Hline. induction records as [|record records IH]; [done|].
  cbn [fmap list_fmap joined].
  fold (fmap (M:=list) (writeLine stringify)).
  rewrite writeLine_app, splitOnNewline_line by apply Hline.
  by rewrite IH.
Qed.

Hypothesis parse_stringify : ∀ record, parse (stringify record) = Some record.
Hypothesis stringify_one_line : ∀ record, hasNewline (stringify record) = false.
Hypothesis inflate_deflate :
  ∀ chunks, inflate (deflate chunks) = Some (joined chunks).

Lemma readStream_createStream (records : list Response) (flag : bool) :
  readStream parse inflate (createStream stringify deflate records flag) flag
  = Some records.
Proof using All.
  unfold readStream, createStream.
  assert ((if flag then Some (if flag then joined (writeLine stringify <$> records)
                              else deflate (writeLine stringify <$> records))
           else inflate (if flag then joined (writeLine stringify <$> records)
                         else deflate (writeLine stringify <$> records)))
          = Some (joined (writeLine stringify <$> records))) as ->.
  { destruct flag; [done|apply inflate_deflate]. }
  simpl. rewrite splitOnNewline_joined by done.
  rewrite length_app, length_fmap. simpl.
  replace (pred (length records + 1)) with (length records) by lia.
  rewrite take_app_length'; [|by rewrite length_fmap].
  by apply mapM_fmap_Some.
Qed.

(** C6: for the same records, what the reader gets from the compressed
    body, by decompressing and parsing it, is record for record what it
    gets from the body that is not compressed: the records themselves, in
    their order. So for every request to the streaming route, whatever its
    x-chunk-encoding header, reading the body of the response gives the
    records that the stream of the handler has emitted, which the flag
    does not enter. The serialiser writes no newline inside a record and
    is inverted by the parser, and the decompressor inverts the streaming
    compressor. *)
Theorem createStream_compression_transparent (records : list Response) :
  readStream parse inflate (createStream stringify deflate records false) false
  = readStream parse inflate (createStream stringify deflate records true) true ∧
  readStream parse inflate (createStream stringify deflate records true) true
  = Some records ∧
  ∀ (handler : KibanaRequest Payload → Payload →
               @Subscription ErrorValue Response)
    (request : KibanaRequest Payload) (k : nat),
    readStream parse inflate
      (responseBody
         (addStreamingResponseRoute
            (λ results compressionDisabled,
               createStream stringify deflate (emitted (after k results))
                 compressionDisabled)
            handler request))
      (getCompressionDisabled request)
    = Some (emitted (after k (handler request (body request)))).
Proof using All.
  rewrite !readStream_createStream. split_and!; [done|done|].
  intros handler request k. unfold addStreamingResponseRoute. simpl.
  apply readStream_createStream.
Qed.

End StreamingFacts.

(** A reader and a writer that satisfy the three assumptions: records are
    booleans written as JSON, the compressor puts a mark before the text
    of the stream. *)
Lemma createStream_compression_transparent_booleans :
  let stringify (b : bool) : string := if b then "true" else "false" in
  let parse (s : string) : option bool :=
    if String.eqb s "true" then Some true
    else if String.eqb s "false" then Some false else None in
  let deflate (chunks : list string) : string :=
    "z" +:+ Streaming.joined chunks in
  let inflate (s : string) : option string :=
    match s with String _ s' => Some s' | EmptyString => None end in
  Streaming.readStream parse inflate
    (Streaming.createStream stringify deflate [true; false] false) false
  = Streaming.readStream parse inflate
      (Streaming.createStream stringify deflate [true; false] true) true.
Proof.
  intros stringify parse deflate inflate.
  refine (proj1 (createStream_compression_transparent
                   (Payload:=unit) (ErrorValue:=unit)
                   stringify parse deflate inflate _ _ _ [true; false]));
    [by intros []|by intros []|done].
Defined.

Example createStream_two_records :
  let stringify (b : bool) : string := if b then "true" else "false" in
  let deflate (chunks : list string) : string :=
    "z" +:+ Streaming.joined chunks in
  Streaming.splitOnNewline
    (Streaming.createStream stringify deflate [true; false] true)
    = ["true"; "false"; ""] ∧
  Streaming.splitOnNewline
    (Streaming.createStream stringify deflate [true; false] false)
    = ["ztrue"; "false"; ""].
Proof. by vm_compute. Qed.

End BfetchFacts.
